(** * Binary morphology of skimage/morphology/binary.py

    The four operators [binary_erosion], [binary_dilation],
    [binary_opening], [binary_closing] and the helper
    [_iterate_binary_func] are embedded as programs of a small state and
    exception monad over a store of arrays, so that object identity
    (which array is [out], which one is a copy) is visible.  The
    SciPy reducers they call are modelled in module [ndi].  Module
    [Views] embeds the same programs over a memory of cells, for arrays
    that share memory. *)

From stdpp Require Import base tactics option list numbers.

Open Scope Z_scope.

(** * Definitions *)

(** ** Dense N-dimensional boolean arrays *)

(** An [ndarray] is a shape and its elements in row-major (C) order. *)
Record ndarray : Type := NdArray { shape : list nat; data : list bool }.

Global Instance ndarray_eq_dec : EqDecision ndarray.
Proof. solve_decision. Defined.

(** Number of elements of an array of shape [sh]. *)
Fixpoint size_of (sh : list nat) : nat :=
  match sh with
  | [] => 1%nat
  | d :: sh' => (d * size_of sh')%nat
  end.

Definition ndim (a : ndarray) : nat := length (shape a).

(** NumPy arrays always carry exactly [size_of shape] elements. *)
Definition wf (a : ndarray) : Prop := length (data a) = size_of (shape a).

(** A multi-index is a list of integers, one per axis.  [flat_index]
    is the position of an in-bounds multi-index in the row-major data,
    and [None] for an index that is out of bounds or of the wrong rank. *)
Fixpoint flat_index (sh : list nat) (p : list Z) : option nat :=
  match sh, p with
  | [], [] => Some 0%nat
  | d :: sh', i :: p' =>
      if decide (0 <= i < Z.of_nat d)
      then k ← flat_index sh' p'; Some (Z.to_nat i * size_of sh' + k)%nat
      else None
  | _, _ => None
  end.

Definition in_bounds (sh : list nat) (p : list Z) : Prop :=
  is_Some (flat_index sh p).

Global Instance in_bounds_dec sh p : Decision (in_bounds sh p).
Proof. unfold in_bounds. apply _. Defined.

(** All multi-indices of a shape, in row-major order (np.ndindex). *)
Fixpoint all_indices (sh : list nat) : list (list Z) :=
  match sh with
  | [] => [[]]
  | d :: sh' =>
      i ← (Z.of_nat <$> seq 0 d); (cons i) <$> all_indices sh'
  end.

(** [a[p]]: the element at multi-index [p], if [p] is in bounds. *)
Definition lookup_px (a : ndarray) (p : list Z) : option bool :=
  k ← flat_index (shape a) p; data a !! k.

(** The array of shape [sh] whose element at [p] is [f p]. *)
Definition build (sh : list nat) (f : list Z → bool) : ndarray :=
  NdArray sh (f <$> all_indices sh).

(** np.full(sh, b) *)
Definition full (sh : list nat) (b : bool) : ndarray :=
  NdArray sh (replicate (size_of sh) b).

(** Componentwise arithmetic on multi-indices. *)
Definition vadd (p q : list Z) : list Z := zip_with Z.add p q.
Definition vsub (p q : list Z) : list Z := zip_with Z.sub p q.
Definition vneg (p : list Z) : list Z := Z.opp <$> p.
Definition vzero (n : nat) : list Z := replicate n 0.

(** ** Outcomes of a call *)

(** The Python exceptions that can arise on the modelled paths.
    [InvalidRef] has no Python counterpart: it is the outcome of following
    a reference that denotes no live array, which a Python caller cannot
    produce; the theorems assume live references. *)
Inductive exn : Type := IndexError | RuntimeError | InvalidRef.

(** A call returns, raises, or runs forever. *)
Inductive outcome (A : Type) : Type :=
  | Ok (a : A)
  | Raise (e : exn)
  | Diverge.
Arguments Ok {A} a.
Arguments Raise {A} e.
Arguments Diverge {A}.

(** ** The neighborhood reducers of scipy.ndimage *)

(** Modelled from the spec: the Neighborhood Reducer of spec section 2,
    that is [scipy.ndimage.binary_erosion] and
    [scipy.ndimage.binary_dilation], which binary.py imports as [ndi] and
    which are not part of the repository.  The model follows SciPy's
    [_binary_erosion] wrapper and its [NI_BinaryErosion] kernel for the
    arguments binary.py passes ([mask=None], [origin=0],
    [brute_force=False]). *)
Module ndi.

(** Modelled from the spec: the border value of the reducer.  The value
    read at [q] is the element when [q] is inside the array and the
    border value otherwise (NI_EXTEND_CONSTANT). *)
Definition neighbor (border_value : bool) (a : ndarray) (q : list Z) : bool :=
  default border_value (lookup_px a q).

(** Modelled from the spec: the neighborhood a structuring element
    defines.  NI_InitFilterOffsets: the offsets of the true elements of
    the structuring element, relative to [shape // 2 + origin]. *)
Definition filter_offsets (structure : ndarray) (origin : list Z) : list (list Z) :=
  let center :=
    vadd ((λ d : nat, Z.of_nat d / 2) <$> shape structure) origin in
  (λ k, vsub k center) <$>
    filter (λ k, lookup_px structure k = Some true)
           (all_indices (shape structure)).

(** Modelled from the spec: one pass of the reducer's kernel.  With
    [invert] the roles of true and false are exchanged on the input, the
    border and the output, which turns the conjunction over the
    neighborhood into a disjunction. *)
Definition NI_BinaryErosion (input structure : ndarray) (border_value : bool)
    (origin : list Z) (invert : bool) : ndarray :=
  let offsets := filter_offsets structure origin in
  build (shape input) (λ p,
    xorb invert
      (forallb (λ o, xorb invert (neighbor border_value input (vadd p o)))
               offsets)).

(** Modelled from the spec: the reducer's iteration for a count below 1.
    Repeat [step] until a pass changes nothing; [None] when [fuel] passes
    did not reach a fixed point. *)
Fixpoint until_stable (fuel : nat) (step : ndarray → ndarray) (x : ndarray)
    : option ndarray :=
  match fuel with
  | O => None
  | S fuel' =>
      let y := step x in
      if decide (y = x) then Some y else until_stable fuel' step y
  end.

(** Modelled from the spec: the reducer with its iteration count.
    [_binary_erosion]: the checks, then [iterations] passes; with
    [iterations < 1] the pass is repeated until the result no longer
    changes.  Spec sections 2 and 3 take a count [n] as [n] passes in a
    row, and so does the model.  SciPy runs the later passes either by
    the same kernel or, when the center of the structuring element is
    true, by a faster routine that propagates the changes of the previous
    pass.  That routine is not modelled: where its result departs from
    the iterated pass (it has been seen to, for the structuring element
    [[0,1,1,0]] with count 2 on the image [[0,0,1],[1,0,0]]), what is
    proved here of a count of 2 or more is proved of the iterated pass,
    not of SciPy.  There are [2 ^ size] arrays of a given shape, so
    a run of passes that has not met a fixed point after that many
    passes is caught in a cycle and never stops.  The input is read
    whole before the output is written (SciPy works on a temporary when
    the two share memory).  The value is the new content of [output]. *)
Definition _binary_erosion (input structure : ndarray) (iterations : Z)
    (output : ndarray) (border_value : bool) (origin : list Z) (invert : bool)
    : outcome ndarray :=
  if decide (ndim structure ≠ ndim input) then Raise RuntimeError
  else if decide (size_of (shape structure) < 1)%nat then Raise RuntimeError
  else if decide (shape output ≠ shape input) then Raise RuntimeError
  else
    let step x := NI_BinaryErosion x structure border_value origin invert in
    if decide (1 <= iterations)
    then Ok (Nat.iter (Z.to_nat iterations) step input)
    else match until_stable (2 ^ length (data input)) step input with
         | Some y => Ok y
         | None => Diverge
         end.

(** Modelled from the spec: [scipy.ndimage.binary_erosion]. *)
Definition binary_erosion (input structure : ndarray) (iterations : Z)
    (output : ndarray) (border_value : bool) : outcome ndarray :=
  _binary_erosion input structure iterations output border_value
                  (vzero (ndim input)) false.

(** Modelled from the spec: the reflection of a structuring element,
    [structure[::-1, ..., ::-1]]. *)
Definition reverse_axes (structure : ndarray) : ndarray :=
  build (shape structure) (λ k,
    default false
      (lookup_px structure
         (zip_with (λ (d : nat) i, Z.of_nat d - 1 - i) (shape structure) k))).

(** Modelled from the spec: [scipy.ndimage.binary_dilation].  Dilation
    is erosion of the complement by the reflected structuring element;
    the origin is moved by one on axes of even length. *)
Definition binary_dilation (input structure : ndarray) (iterations : Z)
    (output : ndarray) (border_value : bool) : outcome ndarray :=
  let origin := vzero (ndim input) in
  let structure' := reverse_axes structure in
  if decide (ndim structure < ndim input)%nat then Raise IndexError
  else
    let origin' :=
      zip_with (λ o (d : nat), if Nat.even d then - o - 1 else - o)
               origin (shape structure) in
    _binary_erosion input structure' iterations output border_value origin' true.

End ndi.

(** ** The store of arrays *)

(** Arrays are objects: a reference is the position of the array in the
    store, in order of allocation. *)
Definition ref : Type := nat.

(** One invocation of a reducer: which objects were passed as input and
    as output, what they held at that moment, and the other arguments. *)
Record call : Type := Call {
  c_src : ref;
  c_dst : ref;
  c_src_val : ndarray;
  c_dst_val : ndarray;
  c_structure : ndarray;
  c_iterations : Z
}.

Record state : Type := State { heap : list ndarray; trace : list call }.

Definition M (A : Type) : Type := state → outcome A * state.

Definition ret {A} (a : A) : M A := λ s, (Ok a, s).

Definition bind {A B} (m : M A) (k : A → M B) : M B := λ s,
  match m s with
  | (Ok a, s') => k a s'
  | (Raise e, s') => (Raise e, s')
  | (Diverge, s') => (Diverge, s')
  end.

Definition raise {A} (e : exn) : M A := λ s, (Raise e, s).

Notation "x <- m ;; k" := (bind m (λ x, k))
  (at level 100, m at next level, right associativity).
Notation "m ;;; k" := (bind m (λ _, k))
  (at level 100, right associativity).

(** Read the array a reference denotes. *)
Definition deref (r : ref) : M ndarray := λ s,
  match heap s !! r with
  | Some a => (Ok a, s)
  | None => (Raise InvalidRef, s)
  end.

Definition alloc (a : ndarray) : M ref := λ s,
  (Ok (length (heap s)), State (heap s ++ [a]) (trace s)).

(** [np.empty(shape, dtype=bool)]: a new array.  NumPy leaves its
    elements unspecified; they are taken to be false here, and every
    operator overwrites the whole array before it is read. *)
Definition np_empty (sh : list nat) : M ref := alloc (full sh false).

(** [a.copy()] *)
Definition copy (r : ref) : M ref := a <- deref r ;; alloc a.

(** A reducer as binary.py uses it: input, structure, iterations and the
    output array; the value is the new content of the output array. *)
Definition reducer : Type := ndarray → ndarray → Z → ndarray → outcome ndarray.

(** [binary_func(src, structure=fp, output=dst, iterations=n)]: the call
    is recorded, the reducer reads [src] and the result is stored in
    [dst]. *)
Definition call_reducer (binary_func : reducer) (src : ref) (structure : ndarray)
    (dst : ref) (iterations : Z) : M unit := λ s,
  match heap s !! src, heap s !! dst with
  | Some x, Some o =>
      let s1 := State (heap s)
                  (trace s ++ [Call src dst x o structure iterations]) in
      match binary_func x structure iterations o with
      | Ok y => (Ok tt, State (<[dst := y]> (heap s1)) (trace s1))
      | Raise e => (Raise e, s1)
      | Diverge => (Diverge, s1)
      end
  | _, _ => (Raise InvalidRef, s)
  end.

(** ** binary.py *)

(** Modelled from the spec: [_footprint_is_sequence] lives in
    skimage/morphology/footprints.py, which is not among the sources.
    Spec section 9 gives the footprint argument as the tagged variant
    [Single(Array) | Decomposed(Sequence<(Array, int)>)] and section 4.2
    makes the normalizer the predicate that tells the two apart. *)
Inductive footprint : Type :=
  | Single (fp : ndarray)
  | Decomposed (steps : list (ndarray * Z)).

(** Modelled from the spec: the Footprint Sequence Normalizer of spec
    section 4.2, true for a decomposed sequence. *)
Definition _footprint_is_sequence (fp : footprint) : bool :=
  match fp with Single _ => false | Decomposed _ => true end.

(** The loop [for fp, num_iter in footprint[1:]] of [_iterate_binary_func]. *)
Fixpoint _iterate_rest (binary_func : reducer) (rest : list (ndarray * Z))
    (out : ref) : M unit :=
  match rest with
  | [] => ret tt
  | (fp, num_iter) :: rest' =>
      c <- copy out ;;
      call_reducer binary_func c fp out num_iter ;;;
      _iterate_rest binary_func rest' out
  end.

Definition _iterate_binary_func (binary_func : reducer) (image : ref)
    (footprint : list (ndarray * Z)) (out : ref) : M ref :=
  match footprint with
  | [] => raise IndexError
  | (fp, num_iter) :: rest =>
      call_reducer binary_func image fp out num_iter ;;;
      _iterate_rest binary_func rest out ;;;
      ret out
  end.

(** [out = np.empty(image.shape, dtype=bool)] when [out is None]. *)
Definition out_or_empty (image : ref) (out : option ref) : M ref :=
  match out with
  | None => a <- deref image ;; np_empty (shape a)
  | Some o => ret o
  end.

(** [functools.partial(ndi.binary_erosion, border_value=True)]; the
    single-footprint call of [binary_erosion] passes the same border
    value. *)
Definition erosion_func : reducer := λ input structure iterations output,
  ndi.binary_erosion input structure iterations output true.

(** [ndi.binary_dilation] with its default border value 0. *)
Definition dilation_func : reducer := λ input structure iterations output,
  ndi.binary_dilation input structure iterations output false.

(** The operators.  The [match] on the footprint is the test
    [_footprint_is_sequence(footprint)]; a single-footprint call leaves
    [iterations] at its default 1. *)
Definition binary_erosion (image : ref) (footprint : footprint)
    (out : option ref) : M ref :=
  out <- out_or_empty image out ;;
  match footprint with
  | Decomposed steps =>
      _iterate_binary_func erosion_func image steps out
  | Single fp =>
      call_reducer erosion_func image fp out 1 ;;;
      ret out
  end.

Definition binary_dilation (image : ref) (footprint : footprint)
    (out : option ref) : M ref :=
  out <- out_or_empty image out ;;
  match footprint with
  | Decomposed steps =>
      _iterate_binary_func dilation_func image steps out
  | Single fp =>
      call_reducer dilation_func image fp out 1 ;;;
      ret out
  end.

Definition binary_opening (image : ref) (footprint : footprint)
    (out : option ref) : M ref :=
  eroded <- binary_erosion image footprint None ;;
  out <- binary_dilation eroded footprint out ;;
  ret out.

Definition binary_closing (image : ref) (footprint : footprint)
    (out : option ref) : M ref :=
  dilated <- binary_dilation image footprint None ;;
  out <- binary_erosion dilated footprint out ;;
  ret out.

(** Run an operator on a store that holds just the image, and read the
    array it returns. *)
Definition run_on (op : ref → footprint → option ref → M ref)
    (image : ndarray) (fp : footprint) : outcome ndarray :=
  match (r <- op 0%nat fp None ;; deref r) (State [image] []) with
  | (res, _) => res
  end.

(** A two-dimensional array from its rows. *)
Definition of_rows (rows : list (list bool)) : ndarray :=
  NdArray [length rows; length (default [] (head rows))] (concat rows).

(** ** The mathematical operators *)

(** Offsets of the true elements of a footprint from its center
    [shape // 2]. *)
Definition footprint_offsets (fp : ndarray) : list (list Z) :=
  ndi.filter_offsets fp (vzero (ndim fp)).

(** Erosion: conjunction over the positions [p + o], outside counts as true. *)
Definition erode (fp x : ndarray) : ndarray :=
  build (shape x) (λ p,
    forallb (λ o, ndi.neighbor true x (vadd p o)) (footprint_offsets fp)).

(** Dilation: disjunction over the positions [p - o], outside counts as
    false. *)
Definition dilate (fp x : ndarray) : ndarray :=
  build (shape x) (λ p,
    existsb (λ o, ndi.neighbor false x (vsub p o)) (footprint_offsets fp)).

(** The index that [structure[::-1, ..., ::-1]] reads at [k]. *)
Definition mirror (sh : list nat) (k : list Z) : list Z :=
  zip_with (λ (d : nat) i, Z.of_nat d - 1 - i) sh k.

(** ** What the programs compute and leave behind *)

Definition obind {A B} (m : outcome A) (k : A → outcome B) : outcome B :=
  match m with
  | Ok a => k a
  | Raise e => Raise e
  | Diverge => Diverge
  end.

(** The steps after the first: each reads the value the output array
    holds and replaces it. *)
Fixpoint chain (f : reducer) (y : ndarray) (rest : list (ndarray * Z))
    : outcome ndarray :=
  match rest with
  | [] => Ok y
  | (fp, n) :: rest' => obind (f y fp n y) (λ y', chain f y' rest')
  end.

Definition call_args (c : call) : ndarray * Z := (c_structure c, c_iterations c).

(** A call whose input is a copy of the output array: the input object
    was allocated at or after position [bound] of the store, it is not
    the output object, and it held what the output array held. *)
Definition copy_call (out : ref) (bound : nat) (c : call) : Prop :=
  c_dst c = out ∧ (bound ≤ c_src c)%nat ∧ c_src c ≠ out ∧
  c_src_val c = c_dst_val c.

(** What [_iterate_binary_func] leaves in the output array. *)
Definition driver_value (f : reducer) (x o : ndarray)
    (steps : list (ndarray * Z)) : outcome ndarray :=
  match steps with
  | [] => Raise IndexError
  | (fp, n) :: rest => obind (f x fp n o) (λ y, chain f y rest)
  end.

(** A structuring element the reducer accepts for an input of [n] axes. *)
Definition structure_ok (n : nat) (fp : ndarray) : Prop :=
  ndim fp = n ∧ (1 ≤ size_of (shape fp))%nat.

Definition step_ok (n : nat) (st : ndarray * Z) : Prop :=
  structure_ok n st.1 ∧ 1 <= st.2.

Definition footprint_ok (n : nat) (fp : footprint) : Prop :=
  match fp with
  | Single a => structure_ok n a
  | Decomposed steps => steps ≠ [] ∧ Forall (step_ok n) steps
  end.

(** The caller's [out], when given, is a live array of the image's shape. *)
Definition out_ok (s : state) (sh : list nat) (out : option ref) : Prop :=
  match out with
  | None => True
  | Some o => ∃ a, heap s !! o = Some a ∧ shape a = sh
  end.

Global Instance structure_ok_dec n fp : Decision (structure_ok n fp).
Proof. unfold structure_ok. apply _. Defined.

Global Instance step_ok_dec n st : Decision (step_ok n st).
Proof. unfold step_ok. apply _. Defined.

Global Instance footprint_ok_dec n fp : Decision (footprint_ok n fp).
Proof. destruct fp; simpl; apply _. Defined.

(** The steps an operator performs for a footprint argument. *)
Definition steps_of (fp : footprint) : list (ndarray * Z) :=
  match fp with
  | Single a => [(a, 1)]
  | Decomposed steps => steps
  end.

(** Apply [op fp] [n] times for each step [(fp, n)], in order. *)
Definition apply_steps (op : ndarray → ndarray → ndarray)
    (steps : list (ndarray * Z)) (x : ndarray) : ndarray :=
  fold_left (λ y st, Nat.iter (Z.to_nat st.2) (op st.1) y) steps x.

Definition morph (op : ndarray → ndarray → ndarray) (fp : footprint)
    (x : ndarray) : ndarray :=
  match fp with
  | Single a => op a x
  | Decomposed steps => apply_steps op steps x
  end.

Definition erosion : footprint → ndarray → ndarray := morph erode.
Definition dilation : footprint → ndarray → ndarray := morph dilate.

(** The common shape of [binary_erosion] and [binary_dilation]. *)
Definition binary_op (f : reducer) (image : ref) (footprint : footprint)
    (out : option ref) : M ref :=
  out <- out_or_empty image out ;;
  match footprint with
  | Decomposed steps => _iterate_binary_func f image steps out
  | Single fp => call_reducer f image fp out 1 ;;; ret out
  end.

(** The state an operator call leaves behind: the returned object is
    [out] when given and a new object otherwise, it holds [y], the arrays
    that existed before are untouched unless they are the returned one,
    and the reducer was called once per step, first on the image and then
    on copies of the output array. *)
Record op_post (image : ref) (fp : footprint) (out : option ref)
    (x y : ndarray) (s : state) (r : ref) (s' : state) : Prop := OpPost {
  post_ref : r = default (length (heap s)) out;
  post_val : heap s' !! r = Some y;
  post_frame : ∀ r', (r' < length (heap s))%nat → r' ≠ r →
               heap s' !! r' = heap s !! r';
  post_len : (length (heap s) ≤ length (heap s'))%nat;
  post_calls : ∃ c0 cs,
    trace s' = trace s ++ c0 :: cs ∧
    c_src c0 = image ∧ c_dst c0 = r ∧ c_src_val c0 = x ∧
    Forall (copy_call r (length (heap s))) cs ∧
    call_args <$> c0 :: cs = steps_of fp
}.

(** Opening and closing are two operator calls in a row. *)
Definition two_stage (f1 f2 : reducer) (image : ref) (footprint : footprint)
    (out : option ref) : M ref :=
  mid <- binary_op f1 image footprint None ;;
  out <- binary_op f2 mid footprint out ;;
  ret out.

(** ** Notions used by the claims *)

(** [op] returns an object that holds [y]: the caller's [out] itself when
    one was passed, and an object that did not exist before otherwise. *)
Definition returns_filled (op : ref → footprint → option ref → M ref)
    (image : ref) (fp : footprint) (out : option ref) (s : state)
    (y : ndarray) : Prop :=
  ∃ r s', op image fp out s = (Ok r, s') ∧
          heap s' !! r = Some y ∧
          match out with
          | Some o => r = o
          | None => (length (heap s) ≤ r)%nat
          end.

(** The reducer calls made so far are only ever added to. *)
Definition grows {A} (m : M A) : Prop :=
  ∀ s, ∃ cs, trace (m s).2 = trace s ++ cs.

(** A sequence that is empty or holds a repeat count below 1. *)
Definition malformed (steps : list (ndarray * Z)) : Prop :=
  steps = [] ∨ Exists (λ st, st.2 < 1) steps.

(** The call raises and no reducer call was made. *)
Definition fails_before_reducing (m : M ref) (s : state) : Prop :=
  ∃ e s', m s = (Raise e, s') ∧ trace s' = trace s.

(** The reducer is called on the first pair, with the count as given. *)
Definition reduces_first_pair (m : M ref) (s : state) (image : ref)
    (fp0 : ndarray) (n0 : Z) : Prop :=
  ∃ res s' c0 cs,
    m s = (res, s') ∧ trace s' = trace s ++ c0 :: cs ∧
    c_src c0 = image ∧ call_args c0 = (fp0, n0).

(** What the reducer gave for a recorded call. *)
Definition call_result (f : reducer) (c : call) : outcome ndarray :=
  f (c_src_val c) (c_structure c) (c_iterations c) (c_dst_val c).

(** The calls of the loop [for fp, num_iter in footprint[1:]] when the
    output array holds [y] and the next array is allocated at position
    [c] of the store: one call per remaining pair, on a copy made for
    that call, up to and including the first call that does not return. *)
Fixpoint later_calls (f : reducer) (out : ref) (c : nat) (y : ndarray)
    (rest : list (ndarray * Z)) : list call :=
  match rest with
  | [] => []
  | (fp, n) :: rest' =>
      Call c out y y fp n ::
        match f y fp n y with
        | Ok y' => later_calls f out (S c) y' rest'
        | _ => []
        end
  end.

(** Erosion by a list of offsets. *)
Definition erode_by (offs : list (list Z)) (x : ndarray) : ndarray :=
  build (shape x) (λ p, forallb (λ o, ndi.neighbor true x (vadd p o)) offs).

(** The passes of a sequence in the order they are applied, each given by
    the offsets of its footprint. *)
Definition passes (steps : list (ndarray * Z)) : list (list (list Z)) :=
  st ← steps; replicate (Z.to_nat st.2) (footprint_offsets st.1).

(** Minkowski sum of two sets of offsets. *)
Definition minkowski_sum (A B : list (list Z)) : list (list Z) :=
  b ← B; a ← A; [vadd a b].

(** The offsets of the composite footprint of a sequence: the Minkowski
    sum of the offsets of all its passes. *)
Definition sequence_offsets (rank : nat) (steps : list (ndarray * Z))
    : list (list Z) :=
  fold_left minkowski_sum (passes steps) [vzero rank].

(** [fc] is a single footprint equivalent to the sequence: its true
    elements sit exactly at the offsets of the Minkowski sum. *)
Definition composite_of (rank : nat) (steps : list (ndarray * Z))
    (fc : ndarray) : Prop :=
  footprint_offsets fc ⊆ sequence_offsets rank steps ∧
  sequence_offsets rank steps ⊆ footprint_offsets fc.

(** Position [p] is interior for the passes [rpasses] (last pass first)
    when every position that a pass other than the first reads, starting
    from [p], lies inside an array of shape [sh]. *)
Fixpoint interior (sh : list nat) (rpasses : list (list (list Z)))
    (p : list Z) : bool :=
  match rpasses with
  | [] => true
  | G :: r =>
      match r with
      | [] => true
      | _ :: _ =>
          forallb (λ o, bool_decide (in_bounds sh (vadd p o)) &&
                        interior sh r (vadd p o)) G
      end
  end.

(** The positions of the image that the passes [rpasses] (last pass
    first) read for the result at [p]: one offset is added per pass, and
    a position outside an array of shape [sh] is read as the border
    value and followed no further. *)
Fixpoint reached (sh : list nat) (rpasses : list (list (list Z)))
    (p : list Z) : list (list Z) :=
  match rpasses with
  | [] => [p]
  | G :: r =>
      o ← G;
      if decide (in_bounds sh (vadd p o)) then reached sh r (vadd p o) else []
  end.

(** Every pair of the sequence applies its footprint once. *)
Definition single_passes (steps : list (ndarray * Z)) : Prop :=
  Forall (λ st, st.2 = 1) steps.

(** The passes applied last pass first, and the Minkowski sum of their
    offsets. *)
Definition run_rev (rpasses : list (list (list Z))) (x : ndarray) : ndarray :=
  fold_right erode_by x rpasses.

Definition sum_rev (rank : nat) (rpasses : list (list (list Z)))
    : list (list Z) :=
  fold_right (λ G acc, minkowski_sum acc G) [vzero rank] rpasses.

Global Instance composite_of_dec rank steps fc :
  Decision (composite_of rank steps fc).
Proof. unfold composite_of. apply _. Defined.

Global Instance single_passes_dec steps : Decision (single_passes steps).
Proof. unfold single_passes. apply _. Defined.

(** Settle a decidable proposition by evaluating its decision. *)
Ltac by_evaluation :=
  match goal with
  | |- ?P => apply (proj1 (bool_decide_eq_true P)); vm_compute; reflexivity
  end.

(** On arrays of shape [sh], the footprint argument [fp] erodes and
    dilates as the single footprint [fc] does.  A single footprint acts
    as itself. *)
Definition acts_as_single (fp : footprint) (fc : ndarray) (sh : list nat)
    : Prop :=
  ∀ y, shape y = sh →
       erosion fp y = erode fc y ∧ dilation fp y = dilate fc y.

(** ** Notions used by the further properties *)

(** [np.logical_not(x)] *)
Definition complement (x : ndarray) : ndarray :=
  NdArray (shape x) (negb <$> data x).

(** Every true element of [x] is a true element of [y]. *)
Definition included (x y : ndarray) : Prop :=
  ∀ p, lookup_px x p = Some true → lookup_px y p = Some true.

(** The footprint is symmetric about its center: with every offset it
    holds the opposite one. *)
Definition symmetric (fp : ndarray) : Prop :=
  Forall (λ o, vneg o ∈ footprint_offsets fp) (footprint_offsets fp).

Global Instance symmetric_dec fp : Decision (symmetric fp).
Proof. unfold symmetric. apply _. Defined.

(** Every footprint of the footprint argument is symmetric. *)
Definition all_symmetric (fp : footprint) : Prop :=
  Forall (λ st, symmetric st.1) (steps_of fp).

Global Instance all_symmetric_dec fp : Decision (all_symmetric fp).
Proof. unfold all_symmetric. apply _. Defined.

(** The center element of the footprint is true. *)
Definition contains_center (fp : ndarray) : Prop :=
  vzero (ndim fp) ∈ footprint_offsets fp.

Global Instance contains_center_dec fp : Decision (contains_center fp).
Proof. unfold contains_center. apply _. Defined.

(** The call raises [e] and no array that existed before has changed. *)
Definition raises_unchanged (m : M ref) (s : state) (e : exn) : Prop :=
  ∃ s', m s = (Raise e, s') ∧
        ∀ r', (r' < length (heap s))%nat → heap s' !! r' = heap s !! r'.

(** ** Arrays that share memory *)

(** In the store above every array owns its elements.  NumPy arrays can
    share them: [image[:]] and [result[i]] are views of the memory of
    [image] and [result], and a caller may pass such a view as [out].
    Module [Views] embeds binary.py a second time, over a memory of cells
    in which arrays can overlap, to tell which memory the operators
    write. *)
Module Views.

(** An array object: its shape and, for each element in row-major order,
    the cell of the memory that holds it.  Two arrays share memory when
    they have a cell in common. *)
Record view : Type := View { v_shape : list nat; v_cells : list nat }.

Record state : Type := State { cells : list bool; arrays : list view }.

Definition M (A : Type) : Type := state → outcome A * state.

Definition ret {A} (a : A) : M A := λ s, (Ok a, s).

Definition bind {A B} (m : M A) (k : A → M B) : M B := λ s,
  match m s with
  | (Ok a, s') => k a s'
  | (Raise e, s') => (Raise e, s')
  | (Diverge, s') => (Diverge, s')
  end.

Definition raise {A} (e : exn) : M A := λ s, (Raise e, s).

#[local, warnings="-notation-overridden"]
Notation "x <- m ;; k" := (bind m (λ x, k))
  (at level 100, m at next level, right associativity).
#[local, warnings="-notation-overridden"]
Notation "m ;;; k" := (bind m (λ _, k))
  (at level 100, right associativity).

(** The array a view shows: the contents of its cells. *)
Definition load (mem : list bool) (v : view) : option ndarray :=
  d ← mapM (λ c, mem !! c) (v_cells v); Some (NdArray (v_shape v) d).

(** Write the elements [d], in order, to the cells [cs]. *)
Fixpoint store (cs : list nat) (d : list bool) (mem : list bool) : list bool :=
  match cs, d with
  | c :: cs', b :: d' => store cs' d' (<[c := b]> mem)
  | _, _ => mem
  end.

Definition deref (r : ref) : M ndarray := λ s,
  match arrays s !! r ≫= load (cells s) with
  | Some a => (Ok a, s)
  | None => (Raise InvalidRef, s)
  end.

(** A new array that owns its memory: its cells are added at the end. *)
Definition alloc (a : ndarray) : M ref := λ s,
  (Ok (length (arrays s)),
   State (cells s ++ data a)
         (arrays s ++
            [View (shape a) (seq (length (cells s)) (length (data a)))])).

(** [np.empty(shape, dtype=bool)] *)
Definition np_empty (sh : list nat) : M ref := alloc (full sh false).

(** [a.copy()] *)
Definition copy (r : ref) : M ref := a <- deref r ;; alloc a.

(** [binary_func(src, structure=fp, output=dst, iterations=n)]: the
    reducer reads [src] and the result is written to the cells of
    [dst]. *)
Definition call_reducer (binary_func : reducer) (src : ref) (structure : ndarray)
    (dst : ref) (iterations : Z) : M unit := λ s,
  match arrays s !! src ≫= load (cells s), arrays s !! dst with
  | Some x, Some vd =>
      match load (cells s) vd with
      | Some o =>
          match binary_func x structure iterations o with
          | Ok y =>
              (Ok tt, State (store (v_cells vd) (data y) (cells s)) (arrays s))
          | Raise e => (Raise e, s)
          | Diverge => (Diverge, s)
          end
      | None => (Raise InvalidRef, s)
      end
  | _, _ => (Raise InvalidRef, s)
  end.

(** The loop [for fp, num_iter in footprint[1:]] of [_iterate_binary_func]. *)
Fixpoint _iterate_rest (binary_func : reducer) (rest : list (ndarray * Z))
    (out : ref) : M unit :=
  match rest with
  | [] => ret tt
  | (fp, num_iter) :: rest' =>
      c <- copy out ;;
      call_reducer binary_func c fp out num_iter ;;;
      _iterate_rest binary_func rest' out
  end.

Definition _iterate_binary_func (binary_func : reducer) (image : ref)
    (footprint : list (ndarray * Z)) (out : ref) : M ref :=
  match footprint with
  | [] => raise IndexError
  | (fp, num_iter) :: rest =>
      call_reducer binary_func image fp out num_iter ;;;
      _iterate_rest binary_func rest out ;;;
      ret out
  end.

(** [out = np.empty(image.shape, dtype=bool)] when [out is None]. *)
Definition out_or_empty (image : ref) (out : option ref) : M ref :=
  match out with
  | None => a <- deref image ;; np_empty (shape a)
  | Some o => ret o
  end.

(** The common shape of [binary_erosion] and [binary_dilation]. *)
Definition binary_op (f : reducer) (image : ref) (footprint : footprint)
    (out : option ref) : M ref :=
  out <- out_or_empty image out ;;
  match footprint with
  | Decomposed steps => _iterate_binary_func f image steps out
  | Single fp => call_reducer f image fp out 1 ;;; ret out
  end.

Definition binary_erosion : ref → footprint → option ref → M ref :=
  binary_op erosion_func.

Definition binary_dilation : ref → footprint → option ref → M ref :=
  binary_op dilation_func.

Definition binary_opening (image : ref) (footprint : footprint)
    (out : option ref) : M ref :=
  eroded <- binary_erosion image footprint None ;;
  out <- binary_dilation eroded footprint out ;;
  ret out.

Definition binary_closing (image : ref) (footprint : footprint)
    (out : option ref) : M ref :=
  dilated <- binary_dilation image footprint None ;;
  out <- binary_erosion dilated footprint out ;;
  ret out.

(** The cells of the array passed as [out]. *)
Definition out_cells (s : state) (out : option ref) : list nat :=
  match out with
  | Some o => default [] (v_cells <$> arrays s !! o)
  | None => []
  end.

(** From [s] to [s'] only cells in [W] were written: the arrays of [s]
    are still there with their cells, no cell was given up, and every
    cell of [s] outside [W] holds what it held. *)
Definition writes_within (W : list nat) (s s' : state) : Prop :=
  arrays s `prefix_of` arrays s' ∧
  (length (cells s) ≤ length (cells s'))%nat ∧
  ∀ a, (a < length (cells s))%nat → a ∉ W → cells s' !! a = cells s !! a.

(** The run of [m] from [s] writes no memory but that of [out]: it
    writes within the cells of [out], and so every array of [s] that has
    no cell in common with [out] shows afterwards what it showed
    before. *)
Definition writes_only_out (m : M ref) (s : state) (out : option ref) : Prop :=
  writes_within (out_cells s out) s (m s).2 ∧
  ∀ r v x, arrays s !! r = Some v →
           (∀ a, a ∈ v_cells v → a ∉ out_cells s out) →
           load (cells s) v = Some x →
           arrays (m s).2 !! r = Some v ∧ load (cells (m s).2) v = Some x.

End Views.

(** * Lemmas and claims *)

(** ** Indices and arrays *)

Lemma length_all_indices sh : length (all_indices sh) = size_of sh.
Proof.
  induction sh as [|d sh IH]; simpl; [done|].
  generalize 0%nat. induction d as [|d IHd]; intros j; simpl; [done|].
  rewrite length_app, length_fmap, IH. f_equal. apply IHd.
Qed.

Lemma flat_index_length sh p k : flat_index sh p = Some k → length p = length sh.
Proof.
  revert p k. induction sh as [|d sh IH]; intros [|i p] k; simpl; try done.
  case_decide; [|done]. destruct (flat_index sh p) eqn:E; [|done].
  intros _. f_equal. eauto.
Qed.

Lemma flat_index_lt sh p k : flat_index sh p = Some k → (k < size_of sh)%nat.
Proof.
  revert p k. induction sh as [|d sh IH]; intros [|i p] k; simpl; try done.
  - intros [= <-]. lia.
  - case_decide; [|done]. destruct (flat_index sh p) as [k'|] eqn:E; [|done].
    simpl. intros [= <-]. apply IH in E. nia.
Qed.

(** Lookup in a concatenation of blocks that all have length [m]. *)
Lemma lookup_bind_uniform {A B} (g : A → list B) (l : list A) (m : nat) k y :
  (∀ x, length (g x) = m) →
  (l ≫= g) !! k = Some y ↔
  ∃ i r x, l !! i = Some x ∧ g x !! r = Some y ∧ k = (i * m + r)%nat.
Proof.
  intros Hm. revert k. induction l as [|a l IH]; intros k; simpl.
  - split; [done|]. intros (i & r & x & H & _). by destruct i.
  - rewrite lookup_app_Some, IH, Hm. split.
    + intros [H|[Hge (i & r & x & Hi & Hr & Hk)]].
      * exists 0%nat, k, a. split_and!; [done|done|lia].
      * exists (S i), r, x. split_and!; [done|done|lia].
    + intros (i & r & x & Hi & Hr & ->).
      assert (r < m)%nat by (rewrite <-(Hm x); by eapply lookup_lt_Some).
      destruct i as [|i]; simpl in *.
      * left. by simplify_eq.
      * right. split; [lia|]. exists i, r, x. split_and!; [done|done|lia].
Qed.

Lemma all_indices_lookup sh k p :
  all_indices sh !! k = Some p ↔ flat_index sh p = Some k.
Proof.
  revert k p. induction sh as [|d sh IH]; intros k p; simpl.
  - destruct p, k; simpl; split; try done; by intros [=].
  - rewrite (lookup_bind_uniform _ _ (size_of sh)); last first.
    { intros x. by rewrite length_fmap, length_all_indices. }
    split.
    + intros (i & r & x & Hi & Hr & ->).
      rewrite list_lookup_fmap in Hi. rewrite list_lookup_fmap in Hr.
      destruct (seq 0 d !! i) as [j|] eqn:Hj; [|done].
      apply lookup_seq in Hj as [-> Hlt]. simpl in Hi. simplify_eq.
      destruct (all_indices sh !! r) as [q|] eqn:Hq; [|done].
      simpl in Hr. simplify_eq. apply IH in Hq.
      rewrite decide_True by lia. rewrite Hq. simpl.
      by rewrite Nat2Z.id.
    + destruct p as [|j p]; [done|]. case_decide as Hj; [|done].
      destruct (flat_index sh p) as [r|] eqn:Hr; [|done]. simpl. intros [= <-].
      exists (Z.to_nat j), r, j. split_and!; [| |done].
      * rewrite list_lookup_fmap, lookup_seq_lt by lia. simpl. f_equal. lia.
      * rewrite list_lookup_fmap. apply IH in Hr. by rewrite Hr.
Qed.

Lemma elem_of_all_indices sh p : p ∈ all_indices sh ↔ in_bounds sh p.
Proof.
  rewrite list_elem_of_lookup. unfold in_bounds, is_Some.
  by setoid_rewrite all_indices_lookup.
Qed.

Lemma lookup_build sh f p :
  lookup_px (build sh f) p = if decide (in_bounds sh p) then Some (f p) else None.
Proof.
  unfold lookup_px, build; simpl. case_decide as Hb.
  - destruct Hb as [k Hk]. rewrite Hk. simpl.
    apply all_indices_lookup in Hk. by rewrite list_lookup_fmap, Hk.
  - destruct (flat_index sh p) eqn:E; [|done]. destruct Hb. by eexists.
Qed.

Lemma wf_build sh f : wf (build sh f).
Proof. unfold wf, build; simpl. by rewrite length_fmap, length_all_indices. Qed.

Lemma build_ext sh f g :
  (∀ p, in_bounds sh p → f p = g p) → build sh f = build sh g.
Proof.
  intros H. unfold build. f_equal. apply list_fmap_ext.
  intros i p Hp. apply H, elem_of_all_indices. by eapply list_elem_of_lookup_2.
Qed.

Lemma lookup_px_in_bounds a p :
  wf a → in_bounds (shape a) p → is_Some (lookup_px a p).
Proof.
  intros Hwf [k Hk]. unfold lookup_px. rewrite Hk. simpl.
  apply lookup_lt_is_Some. rewrite Hwf. by eapply flat_index_lt.
Qed.

Lemma lookup_px_out a p : ¬ in_bounds (shape a) p → lookup_px a p = None.
Proof.
  intros Hb. unfold lookup_px. destruct (flat_index (shape a) p) eqn:E; [|done].
  destruct Hb. by eexists.
Qed.

(** A well-formed array is determined by its shape and its elements. *)
Lemma build_lookup a : wf a → build (shape a) (λ p, default false (lookup_px a p)) = a.
Proof.
  intros Hwf. destruct a as [sh d]. unfold build, wf in *; simpl in *. f_equal.
  apply list_eq. intros k. rewrite list_lookup_fmap.
  destruct (all_indices sh !! k) as [p|] eqn:Hp; simpl.
  - apply all_indices_lookup in Hp. unfold lookup_px; simpl. rewrite Hp. simpl.
    destruct (d !! k) eqn:E; [done|].
    apply lookup_ge_None in E. apply flat_index_lt in Hp. lia.
  - apply lookup_ge_None in Hp. rewrite length_all_indices in Hp.
    symmetry. apply lookup_ge_None. lia.
Qed.

Lemma ndarray_ext a b :
  wf a → wf b → shape a = shape b →
  (∀ p, in_bounds (shape a) p → lookup_px a p = lookup_px b p) → a = b.
Proof.
  intros Ha Hb Hs H. rewrite <-(build_lookup a Ha), <-(build_lookup b Hb), <-Hs.
  apply build_ext. intros p Hp. by rewrite H.
Qed.

Lemma build_const sh b : build sh (λ _, b) = full sh b.
Proof.
  unfold build, full. f_equal. rewrite <-length_all_indices.
  induction (all_indices sh); simpl; [done|]. by f_equal.
Qed.

Lemma in_bounds_cons d sh i p :
  in_bounds (d :: sh) (i :: p) ↔ 0 <= i < Z.of_nat d ∧ in_bounds sh p.
Proof.
  unfold in_bounds; simpl. case_decide as Hi.
  - destruct (flat_index sh p); simpl; split; try done.
    intros [_ []]. done.
  - split; [by intros []|]. intros [? _]. done.
Qed.

Lemma in_bounds_length sh p : in_bounds sh p → length p = length sh.
Proof. intros [k Hk]. by eapply flat_index_length. Qed.

Lemma vadd_vneg p o : vadd p (vneg o) = vsub p o.
Proof.
  unfold vadd, vsub, vneg. revert o. induction p as [|i p IH]; intros [|j o]; simpl; try done.
  f_equal; [lia..|apply IH].
Qed.

Lemma vsub_vneg p o : vsub p (vneg o) = vadd p o.
Proof.
  unfold vadd, vsub, vneg. revert o. induction p as [|i p IH]; intros [|j o]; simpl; try done.
  f_equal; [lia..|apply IH].
Qed.

Lemma vsub_vadd p o : length p = length o → vsub (vadd p o) o = p.
Proof.
  unfold vadd, vsub. revert o. induction p as [|i p IH]; intros [|j o]; simpl; try done.
  intros [= H]. f_equal; [lia..|by apply IH].
Qed.

Lemma vadd_vsub p o : length p = length o → vadd (vsub p o) o = p.
Proof.
  unfold vadd, vsub. revert o. induction p as [|i p IH]; intros [|j o]; simpl; try done.
  intros [= H]. f_equal; [lia..|by apply IH].
Qed.

Lemma length_vadd p o : length (vadd p o) = (length p `min` length o)%nat.
Proof. unfold vadd. apply length_zip_with. Qed.

Lemma length_vsub p o : length (vsub p o) = (length p `min` length o)%nat.
Proof. unfold vsub. apply length_zip_with. Qed.

(** ** The reducers compute [erode] and [dilate] *)

Lemma shape_erode fp x : shape (erode fp x) = shape x.
Proof. done. Qed.

Lemma shape_dilate fp x : shape (dilate fp x) = shape x.
Proof. done. Qed.

Lemma wf_erode fp x : wf (erode fp x).
Proof. apply wf_build. Qed.

Lemma wf_dilate fp x : wf (dilate fp x).
Proof. apply wf_build. Qed.

Lemma shape_iter (f : ndarray → ndarray) n x :
  (∀ y, shape (f y) = shape y) → shape (Nat.iter n f x) = shape x.
Proof. intros Hf. induction n as [|n IH]; simpl; [done|]. by rewrite Hf. Qed.

Lemma wf_iter (f : ndarray → ndarray) n x :
  (∀ y, wf (f y)) → wf x → wf (Nat.iter n f x).
Proof. intros Hf Hx. destruct n; simpl; [done|]. apply Hf. Qed.

Lemma lookup_erode fp x p :
  in_bounds (shape x) p →
  lookup_px (erode fp x) p =
    Some (forallb (λ o, ndi.neighbor true x (vadd p o)) (footprint_offsets fp)).
Proof. intros Hp. unfold erode. rewrite lookup_build. by rewrite decide_True. Qed.

Lemma lookup_dilate fp x p :
  in_bounds (shape x) p →
  lookup_px (dilate fp x) p =
    Some (existsb (λ o, ndi.neighbor false x (vsub p o)) (footprint_offsets fp)).
Proof. intros Hp. unfold dilate. rewrite lookup_build. by rewrite decide_True. Qed.

Lemma erosion_pass input fp n :
  ndim fp = n →
  ndi.NI_BinaryErosion input fp true (vzero n) false = erode fp input.
Proof. intros <-. reflexivity. Qed.

Lemma not_all_not {A} (g : A → bool) l :
  xorb true (forallb (λ o, xorb true (g o)) l) = existsb g l.
Proof.
  induction l as [|a l IH]; simpl; [done|].
  destruct (g a); simpl; [done|]. apply IH.
Qed.

Lemma existsb_elem_of {A} (g : A → bool) l :
  existsb g l = true ↔ ∃ x, x ∈ l ∧ g x = true.
Proof. rewrite existsb_exists. by setoid_rewrite list_elem_of_In. Qed.

Lemma forallb_elem_of {A} (g : A → bool) l :
  forallb g l = true ↔ ∀ x, x ∈ l → g x = true.
Proof. rewrite forallb_forall. by setoid_rewrite list_elem_of_In. Qed.

Lemma mirror_in_bounds sh k : in_bounds sh k → in_bounds sh (mirror sh k).
Proof.
  revert k. induction sh as [|d sh IH]; intros [|i k] Hb;
    try (by apply in_bounds_length in Hb); simpl; try done.
  revert Hb. rewrite !in_bounds_cons. intros [Hi Hk]. split; [lia|by apply IH].
Qed.

Lemma mirror_mirror sh k : in_bounds sh k → mirror sh (mirror sh k) = k.
Proof.
  revert k. induction sh as [|d sh IH]; intros [|i k] Hb;
    try (by apply in_bounds_length in Hb); simpl; try done.
  revert Hb. rewrite in_bounds_cons. intros [Hi Hk]. f_equal; [lia..|by apply IH].
Qed.

Lemma mirror_center sh k :
  in_bounds sh k →
  vsub k (vadd ((λ d : nat, Z.of_nat d / 2) <$> sh)
               (zip_with (λ o (d : nat), if Nat.even d then - o - 1 else - o)
                         (vzero (length sh)) sh))
  = vneg (vsub (mirror sh k)
               (vadd ((λ d : nat, Z.of_nat d / 2) <$> sh) (vzero (length sh)))).
Proof.
  revert k. induction sh as [|d sh IH]; intros [|i k] Hb;
    try (by apply in_bounds_length in Hb); simpl; try done.
  revert Hb. rewrite in_bounds_cons. intros [Hi Hk]. f_equal; [|by apply IH].
  destruct (Nat.even d) eqn:E.
  - apply Nat.even_spec in E as [m Hm].
    assert (Z.of_nat d / 2 = Z.of_nat m) as ->; [|lia].
    symmetry. apply (Z.div_unique _ _ _ 0); lia.
  - assert (Nat.odd d = true) as [m Hm]%Nat.odd_spec.
    { by rewrite <-Nat.negb_even, E. }
    assert (Z.of_nat d / 2 = Z.of_nat m) as ->; [|lia].
    symmetry. apply (Z.div_unique _ _ _ 1); lia.
Qed.

Lemma lookup_reverse_axes fp k :
  in_bounds (shape fp) k →
  lookup_px (ndi.reverse_axes fp) k =
    Some (default false (lookup_px fp (mirror (shape fp) k))).
Proof.
  intros Hk. unfold ndi.reverse_axes. rewrite lookup_build. by rewrite decide_True.
Qed.

Lemma elem_of_filter_offsets fp origin o :
  o ∈ ndi.filter_offsets fp origin ↔
  ∃ k, in_bounds (shape fp) k ∧ lookup_px fp k = Some true ∧
       o = vsub k (vadd ((λ d : nat, Z.of_nat d / 2) <$> shape fp) origin).
Proof.
  unfold ndi.filter_offsets. rewrite list_elem_of_fmap.
  setoid_rewrite list_elem_of_filter. setoid_rewrite elem_of_all_indices.
  split.
  - intros (k & -> & Hl & Hk). by exists k.
  - intros (k & Hk & Hl & ->). by exists k.
Qed.

Lemma reflected_offsets fp o :
  o ∈ ndi.filter_offsets (ndi.reverse_axes fp)
        (zip_with (λ o (d : nat), if Nat.even d then - o - 1 else - o)
                  (vzero (ndim fp)) (shape fp)) ↔
  ∃ o', o' ∈ footprint_offsets fp ∧ o = vneg o'.
Proof.
  unfold footprint_offsets. setoid_rewrite elem_of_filter_offsets. simpl. split.
  - intros (k & Hk & Hl & ->). rewrite lookup_reverse_axes in Hl by done.
    eexists. split.
    + exists (mirror (shape fp) k). split_and!; [by apply mirror_in_bounds| |done].
      destruct (lookup_px fp (mirror (shape fp) k)) as [[]|]; by simplify_eq/=.
    + by apply mirror_center.
  - intros (o' & (j & Hj & Hl & ->) & ->).
    exists (mirror (shape fp) j). split_and!.
    + by apply mirror_in_bounds.
    + rewrite lookup_reverse_axes by by apply mirror_in_bounds.
      by rewrite mirror_mirror, Hl.
    + rewrite mirror_center by by apply mirror_in_bounds.
      by rewrite mirror_mirror.
Qed.

Lemma dilation_pass input fp n :
  ndim fp = n →
  ndi.NI_BinaryErosion input (ndi.reverse_axes fp) false
    (zip_with (λ o (d : nat), if Nat.even d then - o - 1 else - o)
              (vzero n) (shape fp)) true
  = dilate fp input.
Proof.
  intros <-. unfold ndi.NI_BinaryErosion, dilate. apply build_ext. intros p _.
  rewrite not_all_not. apply eq_true_iff_eq.
  rewrite !existsb_elem_of. split.
  - intros (o & (o' & Ho' & ->)%reflected_offsets & H).
    exists o'. split; [done|]. by rewrite <-vadd_vneg.
  - intros (o' & Ho' & H). exists (vneg o'). split.
    + apply reflected_offsets. eauto.
    + by rewrite vadd_vneg.
Qed.

Lemma erosion_func_ok fp x n out :
  ndim fp = ndim x → (1 <= size_of (shape fp))%nat → shape out = shape x →
  1 <= n →
  erosion_func x fp n out = Ok (Nat.iter (Z.to_nat n) (erode fp) x).
Proof.
  intros Hr Hs Ho Hn.
  unfold erosion_func, ndi.binary_erosion, ndi._binary_erosion.
  rewrite decide_False by (intros ?; congruence).
  rewrite decide_False by lia.
  rewrite decide_False by (intros ?; congruence).
  rewrite decide_True by done. f_equal.
  induction (Z.to_nat n) as [|m IH]; simpl; [done|].
  rewrite IH. by apply erosion_pass.
Qed.

Lemma dilation_func_ok fp x n out :
  ndim fp = ndim x → (1 <= size_of (shape fp))%nat → shape out = shape x →
  1 <= n →
  dilation_func x fp n out = Ok (Nat.iter (Z.to_nat n) (dilate fp) x).
Proof.
  intros Hr Hs Ho Hn.
  unfold dilation_func, ndi.binary_dilation, ndi._binary_erosion.
  rewrite decide_False by lia.
  rewrite decide_False by (unfold ndim in *; simpl; intros ?; congruence).
  rewrite decide_False by (simpl; lia).
  rewrite decide_False by (intros ?; congruence).
  rewrite decide_True by done. f_equal.
  induction (Z.to_nat n) as [|m IH]; simpl; [done|].
  rewrite IH. by apply dilation_pass.
Qed.

(** ** The programs on the store *)

Lemma bind_Ok {A B} (m : M A) (k : A → M B) s a s' :
  m s = (Ok a, s') → bind m k s = k a s'.
Proof. unfold bind. by intros ->. Qed.

Lemma bind_Raise {A B} (m : M A) (k : A → M B) s e s' :
  m s = (Raise e, s') → bind m k s = (Raise e, s').
Proof. unfold bind. by intros ->. Qed.

Lemma deref_Ok r s a : heap s !! r = Some a → deref r s = (Ok a, s).
Proof. unfold deref. by intros ->. Qed.

Lemma copy_Ok r s a :
  heap s !! r = Some a →
  copy r s = (Ok (length (heap s)), State (heap s ++ [a]) (trace s)).
Proof. intros H. unfold copy. by rewrite (bind_Ok _ _ _ _ _ (deref_Ok _ _ _ H)). Qed.

Lemma call_reducer_eq f src fp dst n s x o :
  heap s !! src = Some x → heap s !! dst = Some o →
  call_reducer f src fp dst n s =
    let t := trace s ++ [Call src dst x o fp n] in
    match f x fp n o with
    | Ok y => (Ok tt, State (<[dst := y]> (heap s)) t)
    | Raise e => (Raise e, State (heap s) t)
    | Diverge => (Diverge, State (heap s) t)
    end.
Proof. intros Hx Ho. unfold call_reducer. by rewrite Hx, Ho. Qed.

Lemma iterate_rest_spec f out rest s y :
  heap s !! out = Some y →
  ∃ res s' cs,
    _iterate_rest f rest out s = (res, s') ∧
    trace s' = trace s ++ cs ∧
    (length (heap s) ≤ length (heap s'))%nat ∧
    (∀ r, (r < length (heap s))%nat → r ≠ out → heap s' !! r = heap s !! r) ∧
    Forall (copy_call out (length (heap s))) cs ∧
    call_args <$> cs `prefix_of` rest ∧
    match chain f y rest with
    | Ok y' => res = Ok tt ∧ heap s' !! out = Some y' ∧ call_args <$> cs = rest
    | Raise e => res = Raise e
    | Diverge => res = Diverge
    end.
Proof.
  revert s y. induction rest as [|[fp n] rest IH]; intros s y Hout.
  { exists (Ok tt), s, []. simpl. rewrite app_nil_r. by split_and!. }
  assert (out < length (heap s))%nat as Hlt by by eapply lookup_lt_Some.
  set (c := length (heap s)).
  set (k := Call c out y y fp n).
  assert (copy_call out c k) as Hk by (unfold copy_call, c; simpl; split_and!; [done|lia|lia|done]).
  simpl. rewrite (bind_Ok _ _ _ _ _ (copy_Ok _ _ _ Hout)). fold c.
  unfold bind at 1.
  assert ((heap s ++ [y]) !! c = Some y) as Hsrc by by apply list_lookup_middle.
  assert ((heap s ++ [y]) !! out = Some y) as Hdst by by apply lookup_app_l_Some.
  rewrite (call_reducer_eq f c fp out n (State (heap s ++ [y]) (trace s))
             y y Hsrc Hdst); simpl.
  fold k. destruct (f y fp n y) as [y'|e|] eqn:Hf; simpl.
  - destruct (IH (State (<[out:=y']> (heap s ++ [y])) (trace s ++ [k])) y')
      as (res & s' & cs & Hrun & Htr & Hlen & Hfr & Hcs & Hpre & Hch).
    { simpl. apply list_lookup_insert_eq. rewrite length_app. lia. }
    simpl in *. rewrite length_insert, length_app in *. simpl in *.
    exists res, s', (k :: cs). split_and!.
    + done.
    + by rewrite Htr, <-app_assoc.
    + lia.
    + intros r Hr Hne. rewrite Hfr by (done || lia).
      rewrite list_lookup_insert_ne by done. by apply lookup_app_l.
    + constructor; [done|]. eapply Forall_impl; [|exact Hcs].
      intros c' (? & ? & ? & ?). unfold copy_call. split_and!; [done|lia|done|done].
    + simpl. by apply prefix_cons.
    + destruct (chain f y' rest); [|done..].
      destruct Hch as (-> & ? & Hargs). split_and!; [done..|].
      by rewrite fmap_cons, Hargs.
  - exists (Raise e), (State (heap s ++ [y]) (trace s ++ [k])), [k]. simpl.
    rewrite length_app. split_and!; try done.
    + lia.
    + intros r Hr _. by apply lookup_app_l.
    + by constructor.
    + apply prefix_cons, prefix_nil.
  - exists Diverge, (State (heap s ++ [y]) (trace s ++ [k])), [k]. simpl.
    rewrite length_app. split_and!; try done.
    + lia.
    + intros r Hr _. by apply lookup_app_l.
    + by constructor.
    + apply prefix_cons, prefix_nil.
Qed.

Lemma iterate_binary_func_spec f image fp n rest out s x o :
  heap s !! image = Some x → heap s !! out = Some o →
  ∃ res s' cs,
    _iterate_binary_func f image ((fp, n) :: rest) out s = (res, s') ∧
    trace s' = trace s ++ Call image out x o fp n :: cs ∧
    (length (heap s) ≤ length (heap s'))%nat ∧
    (∀ r, (r < length (heap s))%nat → r ≠ out → heap s' !! r = heap s !! r) ∧
    Forall (copy_call out (length (heap s))) cs ∧
    call_args <$> cs `prefix_of` rest ∧
    match driver_value f x o ((fp, n) :: rest) with
    | Ok y => res = Ok out ∧ heap s' !! out = Some y ∧ call_args <$> cs = rest
    | Raise e => res = Raise e
    | Diverge => res = Diverge
    end.
Proof.
  intros Hx Ho.
  assert (out < length (heap s))%nat as Hlt by by eapply lookup_lt_Some.
  unfold _iterate_binary_func. unfold bind at 1.
  rewrite (call_reducer_eq f image fp out n s x o Hx Ho). simpl.
  set (c0 := Call image out x o fp n).
  destruct (f x fp n o) as [y0|e|] eqn:Hf; simpl.
  - destruct (iterate_rest_spec f out rest
                (State (<[out:=y0]> (heap s)) (trace s ++ [c0])) y0)
      as (res & s' & cs & Hrun & Htr & Hlen & Hfr & Hcs & Hpre & Hch).
    { simpl. by apply list_lookup_insert_eq. }
    simpl in *. rewrite length_insert in *.
    unfold bind. rewrite Hrun.
    destruct (chain f y0 rest) as [y|e|].
    + destruct Hch as (-> & Hy & Hargs).
      exists (Ok out), s', cs. split_and!; try done.
      * by rewrite Htr, <-app_assoc.
      * intros r Hr Hne. rewrite Hfr by done. by apply list_lookup_insert_ne.
    + subst res. exists (Raise e), s', cs. split_and!; try done.
      * by rewrite Htr, <-app_assoc.
      * intros r Hr Hne. rewrite Hfr by done. by apply list_lookup_insert_ne.
    + subst res. exists Diverge, s', cs. split_and!; try done.
      * by rewrite Htr, <-app_assoc.
      * intros r Hr Hne. rewrite Hfr by done. by apply list_lookup_insert_ne.
  - exists (Raise e), (State (heap s) (trace s ++ [c0])), []. simpl.
    split_and!; try done. apply prefix_nil.
  - exists Diverge, (State (heap s) (trace s ++ [c0])), []. simpl.
    split_and!; try done. apply prefix_nil.
Qed.

(** ** Specifications of the operators *)

Lemma binary_erosion_unfold : binary_erosion = binary_op erosion_func.
Proof. reflexivity. Qed.

Lemma binary_dilation_unfold : binary_dilation = binary_op dilation_func.
Proof. reflexivity. Qed.

Section Operator.
Variable f : reducer.
Variable op : ndarray → ndarray → ndarray.
Hypothesis f_computes : ∀ fp x n o,
  structure_ok (ndim x) fp → shape o = shape x → 1 <= n →
  f x fp n o = Ok (Nat.iter (Z.to_nat n) (op fp) x).
Hypothesis op_shape : ∀ fp x, shape (op fp x) = shape x.

Lemma apply_steps_shape steps x : shape (apply_steps op steps x) = shape x.
Proof.
  revert x. induction steps as [|st steps IH]; intros x; simpl; [done|].
  unfold apply_steps in *. simpl. rewrite IH. by apply shape_iter.
Qed.

Lemma morph_shape fp x : shape (morph op fp x) = shape x.
Proof. destruct fp; simpl; [apply op_shape|apply apply_steps_shape]. Qed.

Lemma chain_ok rest y :
  Forall (step_ok (ndim y)) rest →
  chain f y rest = Ok (apply_steps op rest y).
Proof.
  revert y. induction rest as [|[fp n] rest IH]; intros y Hok; simpl; [done|].
  apply Forall_cons_1 in Hok as [[Hfp Hn] Hok]. simpl in *.
  rewrite f_computes by done. simpl. rewrite IH; [done|].
  unfold ndim. rewrite shape_iter by apply op_shape. done.
Qed.

Lemma driver_value_ok steps x o :
  footprint_ok (ndim x) (Decomposed steps) → shape o = shape x →
  driver_value f x o steps = Ok (apply_steps op steps x).
Proof.
  intros [Hne Hok] Ho. destruct steps as [|[fp n] rest]; [done|].
  apply Forall_cons_1 in Hok as [[Hfp Hn] Hok]. simpl in *.
  rewrite f_computes by done. simpl. rewrite chain_ok; [done|].
  unfold ndim. rewrite shape_iter by apply op_shape. done.
Qed.

Lemma binary_op_spec image fp out s x :
  heap s !! image = Some x →
  footprint_ok (ndim x) fp →
  out_ok s (shape x) out →
  ∃ r s', binary_op f image fp out s = (Ok r, s') ∧
          op_post image fp out x (morph op fp x) s r s'.
Proof.
  intros Hx Hfp Hout.
  assert (image < length (heap s))%nat as Hlt by by eapply lookup_lt_Some.
  (* the output array, and the state once it exists *)
  set (r := default (length (heap s)) out).
  set (s0 := match out with
             | None => State (heap s ++ [full (shape x) false]) (trace s)
             | Some _ => s
             end).
  assert (out_or_empty image out s = (Ok r, s0)) as Hprep.
  { destruct out as [o|]; simpl; [done|].
    by rewrite (bind_Ok _ _ _ _ _ (deref_Ok _ _ _ Hx)). }
  assert (∃ o, heap s0 !! r = Some o ∧ shape o = shape x) as (o & Ho & Hso).
  { destruct out as [o|]; simpl in *; [done|].
    eexists. split; [by apply list_lookup_middle|done]. }
  assert (heap s0 !! image = Some x) as Hx0.
  { destruct out; simpl; [done|]. by apply lookup_app_l_Some. }
  assert (trace s0 = trace s) as Htr0 by by destruct out.
  assert (length (heap s) ≤ length (heap s0))%nat as Hlen0.
  { destruct out; simpl; [done|]. rewrite length_app. lia. }
  assert (∀ r', (r' < length (heap s))%nat → heap s0 !! r' = heap s !! r')
    as Hfr0.
  { intros r' Hr'. destruct out; simpl; [done|]. by apply lookup_app_l. }
  unfold binary_op. rewrite (bind_Ok _ _ _ _ _ Hprep).
  destruct fp as [a|steps]; simpl in Hfp.
  - unfold bind. rewrite (call_reducer_eq f image a r 1 s0 x o Hx0 Ho).
    rewrite f_computes by done. simpl.
    eexists _, _. split; [done|]. split; simpl.
    + done.
    + apply list_lookup_insert_eq. by eapply lookup_lt_Some.
    + intros r' Hr' Hne. rewrite list_lookup_insert_ne by done. by apply Hfr0.
    + by rewrite length_insert.
    + eexists _, []. rewrite Htr0. by split_and!.
  - destruct steps as [|[a n] rest]; [by destruct Hfp|].
    destruct (iterate_binary_func_spec f image a n rest r s0 x o Hx0 Ho)
      as (res & s' & cs & Hrun & Htr & Hlen & Hfr & Hcs & Hpre & Hval).
    rewrite (driver_value_ok _ _ _ Hfp Hso) in Hval.
    destruct Hval as (-> & Hy & Hargs).
    exists r, s'. split; [done|]. split; simpl.
    + done.
    + done.
    + intros r' Hr' Hne. rewrite Hfr by (done || lia). by apply Hfr0.
    + lia.
    + eexists _, cs. rewrite Htr, Htr0. split_and!; try done.
      * eapply Forall_impl; [|exact Hcs].
        intros c (? & ? & ? & ?). unfold copy_call. split_and!; try done. lia.
      * unfold call_args at 1. simpl. f_equal. exact Hargs.
Qed.
End Operator.

Lemma binary_opening_unfold :
  binary_opening = two_stage erosion_func dilation_func.
Proof. reflexivity. Qed.

Lemma binary_closing_unfold :
  binary_closing = two_stage dilation_func erosion_func.
Proof. reflexivity. Qed.

Section TwoStage.
Variables f1 f2 : reducer.
Variables op1 op2 : ndarray → ndarray → ndarray.
Hypothesis f1_computes : ∀ fp x n o,
  structure_ok (ndim x) fp → shape o = shape x → 1 <= n →
  f1 x fp n o = Ok (Nat.iter (Z.to_nat n) (op1 fp) x).
Hypothesis f2_computes : ∀ fp x n o,
  structure_ok (ndim x) fp → shape o = shape x → 1 <= n →
  f2 x fp n o = Ok (Nat.iter (Z.to_nat n) (op2 fp) x).
Hypothesis op1_shape : ∀ fp x, shape (op1 fp x) = shape x.
Hypothesis op2_shape : ∀ fp x, shape (op2 fp x) = shape x.

Lemma two_stage_spec image fp out s x :
  heap s !! image = Some x →
  footprint_ok (ndim x) fp →
  out_ok s (shape x) out →
  ∃ mid s1 r s',
    binary_op f1 image fp None s = (Ok mid, s1) ∧
    op_post image fp None x (morph op1 fp x) s mid s1 ∧
    binary_op f2 mid fp out s1 = (Ok r, s') ∧
    op_post mid fp out (morph op1 fp x) (morph op2 fp (morph op1 fp x))
            s1 r s' ∧
    two_stage f1 f2 image fp out s = (Ok r, s').
Proof.
  intros Hx Hfp Hout.
  destruct (binary_op_spec f1 op1 f1_computes op1_shape image fp None s x)
    as (mid & s1 & Hrun1 & Hpost1); [done..|].
  pose proof (morph_shape op1 op1_shape fp x) as Hsh.
  destruct (binary_op_spec f2 op2 f2_computes op2_shape mid fp out s1
              (morph op1 fp x)) as (r & s' & Hrun2 & Hpost2).
  - by destruct Hpost1.
  - unfold ndim. by rewrite Hsh.
  - destruct out as [o|]; simpl in *; [|done].
    destruct Hout as (a & Ha & Hs). exists a. rewrite Hsh. split; [|done].
    destruct Hpost1 as [-> _ Hfr _ _]. simpl in *.
    apply lookup_lt_Some in Ha as Hlt. rewrite Hfr by (done || lia). done.
  - exists mid, s1, r, s'. split_and!; try done.
    unfold two_stage. rewrite (bind_Ok _ _ _ _ _ Hrun1).
    by rewrite (bind_Ok _ _ _ _ _ Hrun2).
Qed.
End TwoStage.

Lemma erosion_func_computes fp x n o :
  structure_ok (ndim x) fp → shape o = shape x → 1 <= n →
  erosion_func x fp n o = Ok (Nat.iter (Z.to_nat n) (erode fp) x).
Proof. intros [? ?] ? ?. by apply erosion_func_ok. Qed.

Lemma dilation_func_computes fp x n o :
  structure_ok (ndim x) fp → shape o = shape x → 1 <= n →
  dilation_func x fp n o = Ok (Nat.iter (Z.to_nat n) (dilate fp) x).
Proof. intros [? ?] ? ?. by apply dilation_func_ok. Qed.

Lemma binary_erosion_spec image fp out s x :
  heap s !! image = Some x →
  footprint_ok (ndim x) fp →
  out_ok s (shape x) out →
  ∃ r s', binary_erosion image fp out s = (Ok r, s') ∧
          op_post image fp out x (erosion fp x) s r s'.
Proof.
  rewrite binary_erosion_unfold.
  apply (binary_op_spec _ erode erosion_func_computes shape_erode).
Qed.

Lemma binary_dilation_spec image fp out s x :
  heap s !! image = Some x →
  footprint_ok (ndim x) fp →
  out_ok s (shape x) out →
  ∃ r s', binary_dilation image fp out s = (Ok r, s') ∧
          op_post image fp out x (dilation fp x) s r s'.
Proof.
  rewrite binary_dilation_unfold.
  apply (binary_op_spec _ dilate dilation_func_computes shape_dilate).
Qed.

Lemma binary_opening_spec image fp out s x :
  heap s !! image = Some x →
  footprint_ok (ndim x) fp →
  out_ok s (shape x) out →
  ∃ mid s1 r s',
    binary_erosion image fp None s = (Ok mid, s1) ∧
    op_post image fp None x (erosion fp x) s mid s1 ∧
    binary_dilation mid fp out s1 = (Ok r, s') ∧
    op_post mid fp out (erosion fp x) (dilation fp (erosion fp x)) s1 r s' ∧
    binary_opening image fp out s = (Ok r, s').
Proof.
  rewrite binary_opening_unfold, binary_erosion_unfold, binary_dilation_unfold.
  apply (two_stage_spec _ _ erode dilate erosion_func_computes
           dilation_func_computes shape_erode shape_dilate).
Qed.

Lemma binary_closing_spec image fp out s x :
  heap s !! image = Some x →
  footprint_ok (ndim x) fp →
  out_ok s (shape x) out →
  ∃ mid s1 r s',
    binary_dilation image fp None s = (Ok mid, s1) ∧
    op_post image fp None x (dilation fp x) s mid s1 ∧
    binary_erosion mid fp out s1 = (Ok r, s') ∧
    op_post mid fp out (dilation fp x) (erosion fp (dilation fp x)) s1 r s' ∧
    binary_closing image fp out s = (Ok r, s').
Proof.
  rewrite binary_closing_unfold, binary_erosion_unfold, binary_dilation_unfold.
  apply (two_stage_spec _ _ dilate erode dilation_func_computes
           erosion_func_computes shape_dilate shape_erode).
Qed.

Lemma lookup_full sh b p c : lookup_px (full sh b) p = Some c → c = b.
Proof.
  unfold lookup_px, full; simpl. destruct (flat_index sh p); simpl; [|done].
  by intros [-> _]%lookup_replicate.
Qed.

Lemma erode_full fp sh : erode fp (full sh true) = full sh true.
Proof.
  etrans; [|apply build_const]. apply build_ext. intros p _.
  apply forallb_elem_of. intros o _. unfold ndi.neighbor.
  destruct (lookup_px (full sh true) (vadd p o)) as [c|] eqn:E; simpl; [|done].
  by apply lookup_full in E.
Qed.


(** ** The scenarios of the specification *)

(** Spec section 8: a 5x5 image with one true pixel at (2,2) and the 3x3
    cross.  Dilation sets (1,2), (2,1), (2,2), (2,3), (3,2); erosion and
    opening give an all-false image. *)
Example single_pixel_scenario :
  let cross := of_rows [[false; true; false]; [true; true; true];
                        [false; true; false]] in
  let dot := of_rows [[false; false; false; false; false];
                      [false; false; false; false; false];
                      [false; false; true; false; false];
                      [false; false; false; false; false];
                      [false; false; false; false; false]] in
  run_on binary_dilation dot (Single cross) =
    Ok (of_rows [[false; false; false; false; false];
                 [false; false; true; false; false];
                 [false; true; true; true; false];
                 [false; false; true; false; false];
                 [false; false; false; false; false]]) ∧
  run_on binary_erosion dot (Single cross) = Ok (full [5; 5]%nat false) ∧
  run_on binary_opening dot (Single cross) = Ok (full [5; 5]%nat false).
Proof. split_and!; vm_compute; reflexivity. Qed.

(** Spec section 8: closing fills a single false pixel surrounded by
    true, and eroding an all-true 3x3 image by the full 3x3 footprint
    gives an all-true image. *)
Example hole_and_border_scenario :
  let cross := of_rows [[false; true; false]; [true; true; true];
                        [false; true; false]] in
  let hole := of_rows [[true; true; true]; [true; false; true];
                       [true; true; true]] in
  run_on binary_closing hole (Single cross) = Ok (full [3; 3]%nat true) ∧
  run_on binary_erosion (full [3; 3]%nat true) (Single (full [3; 3]%nat true))
    = Ok (full [3; 3]%nat true).
Proof. split_and!; vm_compute; reflexivity. Qed.

(** ** Claims on erosion and dilation with a single footprint *)

(** C1. On a live image [x] and a single footprint [fp] of the image's
    rank, [binary_erosion] returns an array of the image's shape whose
    element at every position [p] is the conjunction of the image over
    the positions [p + o], where [o] ranges over the offsets of the true
    elements of [fp] from its center and a position outside the image
    counts as true.  An all-true image is eroded to an all-true array. *)
Theorem binary_erosion_neighborhood_and s image x fp out :
  heap s !! image = Some x →
  structure_ok (ndim x) fp →
  out_ok s (shape x) out →
  ∃ r s' y,
    binary_erosion image (Single fp) out s = (Ok r, s') ∧
    heap s' !! r = Some y ∧
    shape y = shape x ∧
    (∀ p, in_bounds (shape x) p →
       lookup_px y p =
         Some (forallb (λ o, default true (lookup_px x (vadd p o)))
                       (footprint_offsets fp))) ∧
    (x = full (shape x) true → y = full (shape x) true).
Proof.
  intros Hx Hfp Hout.
  destruct (binary_erosion_spec image (Single fp) out s x)
    as (r & s' & Hrun & Hpost); [done..|].
  exists r, s', (erode fp x). split_and!.
  - done.
  - by destruct Hpost.
  - done.
  - intros p Hp. by apply lookup_erode.
  - intros ->. apply erode_full.
Qed.

Lemma binary_erosion_neighborhood_and_witness :
  ∃ r s' y,
    binary_erosion 0%nat (Single (full [3; 3]%nat true)) None
      (State [full [3; 3]%nat true] []) = (Ok r, s') ∧
    heap s' !! r = Some y ∧
    shape y = [3; 3]%nat ∧
    (∀ p, in_bounds [3; 3]%nat p →
       lookup_px y p =
         Some (forallb
                 (λ o, default true (lookup_px (full [3; 3]%nat true) (vadd p o)))
                 (footprint_offsets (full [3; 3]%nat true)))) ∧
    (full [3; 3]%nat true = full [3; 3]%nat true → y = full [3; 3]%nat true).
Proof.
  apply (binary_erosion_neighborhood_and
           (State [full [3; 3]%nat true] []) 0%nat (full [3; 3]%nat true)
           (full [3; 3]%nat true) None).
  - reflexivity.
  - split; [reflexivity|simpl; lia].
  - exact I.
Defined.




(** ** Claim on the sequential application driver *)

Lemma iterate_rest_trace f out rest s y :
  heap s !! out = Some y →
  trace (_iterate_rest f rest out s).2 =
    trace s ++ later_calls f out (length (heap s)) y rest.
Proof.
  revert s y. induction rest as [|[fp n] rest IH]; intros s y Hout.
  { simpl. by rewrite app_nil_r. }
  assert (out < length (heap s))%nat as Hlt by by eapply lookup_lt_Some.
  set (c := length (heap s)).
  simpl. rewrite (bind_Ok _ _ _ _ _ (copy_Ok _ _ _ Hout)). fold c.
  unfold bind at 1.
  assert ((heap s ++ [y]) !! c = Some y) as Hsrc by by apply list_lookup_middle.
  assert ((heap s ++ [y]) !! out = Some y) as Hdst by by apply lookup_app_l_Some.
  rewrite (call_reducer_eq f c fp out n (State (heap s ++ [y]) (trace s))
             y y Hsrc Hdst); simpl.
  destruct (f y fp n y) as [y'|e|] eqn:Hf; simpl; [|done..].
  rewrite (IH (State (<[out:=y']> (heap s ++ [y]))
                 (trace s ++ [Call c out y y fp n])) y'); simpl.
  - rewrite length_insert, length_app, <-app_assoc. simpl.
    by replace (length (heap s) + 1)%nat with (S c) by (unfold c; lia).
  - apply list_lookup_insert_eq. rewrite length_app. lia.
Qed.

Lemma iterate_binary_func_trace f image fp n rest out s x o :
  heap s !! image = Some x → heap s !! out = Some o →
  trace (_iterate_binary_func f image ((fp, n) :: rest) out s).2 =
    trace s ++ Call image out x o fp n ::
      match f x fp n o with
      | Ok y => later_calls f out (length (heap s)) y rest
      | _ => []
      end.
Proof.
  intros Hx Ho.
  assert (out < length (heap s))%nat as Hlt by by eapply lookup_lt_Some.
  unfold _iterate_binary_func. unfold bind at 1.
  rewrite (call_reducer_eq f image fp out n s x o Hx Ho). simpl.
  destruct (f x fp n o) as [y0|e|] eqn:Hf; simpl; [|done..].
  set (s1 := State (<[out:=y0]> (heap s)) (trace s ++ [Call image out x o fp n])).
  pose proof (iterate_rest_trace f out rest s1 y0) as Htr.
  unfold bind. destruct (_iterate_rest f rest out s1) as [[[]|e|] s2];
    simpl in *; (rewrite Htr; [|by apply list_lookup_insert_eq]);
    by rewrite length_insert, <-app_assoc.
Qed.

Lemma later_calls_src f out c y rest :
  c_src <$> later_calls f out c y rest =
    seq c (length (later_calls f out c y rest)).
Proof.
  revert c y. induction rest as [|[fp n] rest IH]; intros c y; simpl; [done|].
  f_equal. destruct (f y fp n y); simpl; [apply IH|done..].
Qed.

(** Each call but the first is made after the call before it returned,
    on what that call returned. *)
Lemma later_calls_linked f out c y rest cprev k a b :
  call_result f cprev = Ok y →
  (cprev :: later_calls f out c y rest) !! k = Some a →
  later_calls f out c y rest !! k = Some b →
  call_result f a = Ok (c_src_val b).
Proof.
  revert c y cprev k. induction rest as [|[fp n] rest IH];
    intros c y cprev k Hprev Ha Hb; simpl in *; [done|].
  destruct k as [|k]; simpl in *.
  - by injection Ha as <-; injection Hb as <-.
  - destruct (f y fp n y) as [y'|e|] eqn:Hf; [|done..].
    by eapply (IH (S c) y' (Call c out y y fp n) k).
Qed.

(** The last call decides the outcome, and when it returned no pair was
    left out. *)
Lemma later_calls_last f out c y rest cprev cl :
  call_result f cprev = Ok y →
  list.last (cprev :: later_calls f out c y rest) = Some cl →
  match call_result f cl with
  | Ok _ => (∃ y', chain f y rest = Ok y') ∧
            call_args <$> later_calls f out c y rest = rest
  | Raise e => chain f y rest = Raise e
  | Diverge => chain f y rest = Diverge
  end.
Proof.
  revert c y cprev. induction rest as [|[fp n] rest IH];
    intros c y cprev Hprev Hl.
  { simpl in *. injection Hl as <-. rewrite Hprev. split; [by eexists|done]. }
  cbn [later_calls chain] in *. rewrite last_cons_cons in Hl.
  destruct (f y fp n y) as [y'|e|] eqn:Hf; cbn [obind].
  - specialize (IH (S c) y' (Call c out y y fp n) Hf Hl).
    destruct (call_result f cl); [|done..].
    destruct IH as [? Hargs]. split; [done|]. by rewrite fmap_cons, Hargs.
  - injection Hl as <-. unfold call_result. simpl. by rewrite Hf.
  - injection Hl as <-. unfold call_result. simpl. by rewrite Hf.
Qed.

(** C3. Whatever the reducer, [_iterate_binary_func] on a non-empty
    sequence (so also on one of length at least 2) first calls the
    reducer with the image object as input and [out] as output, on the
    first pair.  Every later call has [out] as output and, as input, an
    object that did not exist before the driver ran, that is not [out],
    and that held at the moment of the call exactly what [out] held; no
    such call reads and writes the same object, and no two of them read
    the same object: the k-th one reads the k-th array allocated since
    the driver was entered.  The later calls follow the remaining pairs
    in order.  Each is made once the call before it has returned, on what
    that call returned, and the calls go on until one does not return or
    the pairs are used up: when the last call made returned, there was a
    call for every pair and the driver returns [out]; otherwise the
    driver ends as that call did. *)
Theorem iterate_binary_func_calls f image out s x o fp0 n0 rest :
  heap s !! image = Some x →
  heap s !! out = Some o →
  ∃ res s' cs,
    _iterate_binary_func f image ((fp0, n0) :: rest) out s = (res, s') ∧
    trace s' = trace s ++ Call image out x o fp0 n0 :: cs ∧
    Forall (λ c, c_dst c = out ∧
                 (length (heap s) ≤ c_src c)%nat ∧
                 c_src_val c = c_dst_val c ∧
                 c_src c ≠ c_dst c) cs ∧
    c_src <$> cs = seq (length (heap s)) (length cs) ∧
    call_args <$> cs `prefix_of` rest ∧
    (∀ r, res = Ok r → r = out ∧ call_args <$> cs = rest) ∧
    (∀ k a b, (Call image out x o fp0 n0 :: cs) !! k = Some a →
              cs !! k = Some b →
              call_result f a = Ok (c_src_val b)) ∧
    (∀ cl, list.last (Call image out x o fp0 n0 :: cs) = Some cl →
           match call_result f cl with
           | Ok _ => res = Ok out ∧ call_args <$> cs = rest
           | Raise e => res = Raise e
           | Diverge => res = Diverge
           end).
Proof.
  intros Hx Ho.
  destruct (iterate_binary_func_spec f image fp0 n0 rest out s x o Hx Ho)
    as (res & s' & cs & Hrun & Htr & _ & _ & Hcs & Hpre & Hval).
  pose proof (iterate_binary_func_trace f image fp0 n0 rest out s x o Hx Ho)
    as Htr'.
  rewrite Hrun in Htr'. simpl in Htr'. rewrite Htr in Htr'.
  apply app_inv_head in Htr'. injection Htr' as Hcs'.
  set (c0 := Call image out x o fp0 n0).
  assert (call_result f c0 = f x fp0 n0 o) as Hc0 by done.
  exists res, s', cs. split_and!; try done.
  - eapply Forall_impl; [|exact Hcs].
    intros c (Hd & Hb & Hne & Hv). split_and!; try done. by rewrite Hd.
  - rewrite Hcs'. destruct (f x fp0 n0 o); [apply later_calls_src|done..].
  - intros r ->. destruct (driver_value f x o ((fp0, n0) :: rest)); try done.
    destruct Hval as ([= ->] & _ & Hargs). done.
  - intros k a b Ha Hb. rewrite Hcs' in Ha, Hb.
    destruct (f x fp0 n0 o) as [y0|e|] eqn:Hf; [|done..].
    by eapply later_calls_linked.
  - intros cl Hl. simpl in Hval. rewrite Hcs' in Hl |- *.
    destruct (f x fp0 n0 o) as [y0|e|] eqn:Hf; simpl in Hval.
    + pose proof (later_calls_last f out (length (heap s)) y0 rest c0 cl
                    Hc0 Hl) as H.
      destruct (call_result f cl) as [yl|e|].
      * destruct H as [[y' Hch] Hargs]. rewrite Hch in Hval.
        by destruct Hval as (-> & _ & _).
      * by rewrite H in Hval.
      * by rewrite H in Hval.
    + injection Hl as <-. by rewrite Hc0.
    + injection Hl as <-. by rewrite Hc0.
Qed.

Lemma iterate_binary_func_calls_witness :
  let x := NdArray [4]%nat [true; true; true; false] in
  let o := NdArray [4]%nat [false; false; false; false] in
  let fp := NdArray [3]%nat [true; true; true] in
  let s := State [x; o] [] in
  ∃ res s' cs,
    _iterate_binary_func erosion_func 0%nat [(fp, 1); (fp, 2)] 1%nat s = (res, s') ∧
    trace s' = trace s ++ Call 0%nat 1%nat x o fp 1 :: cs ∧
    Forall (λ c, c_dst c = 1%nat ∧
                 (length (heap s) ≤ c_src c)%nat ∧
                 c_src_val c = c_dst_val c ∧
                 c_src c ≠ c_dst c) cs ∧
    c_src <$> cs = seq (length (heap s)) (length cs) ∧
    call_args <$> cs `prefix_of` [(fp, 2)] ∧
    (∀ r, res = Ok r → r = 1%nat ∧ call_args <$> cs = [(fp, 2)]) ∧
    (∀ k a b, (Call 0%nat 1%nat x o fp 1 :: cs) !! k = Some a →
              cs !! k = Some b →
              call_result erosion_func a = Ok (c_src_val b)) ∧
    (∀ cl, list.last (Call 0%nat 1%nat x o fp 1 :: cs) = Some cl →
           match call_result erosion_func cl with
           | Ok _ => res = Ok 1%nat ∧ call_args <$> cs = [(fp, 2)]
           | Raise e => res = Raise e
           | Diverge => res = Diverge
           end).
Proof.
  intros x o fp s.
  apply (iterate_binary_func_calls erosion_func 0%nat 1%nat s x o fp 1 [(fp, 2)]).
  - reflexivity.
  - reflexivity.
Defined.

(** The run of the witness above, in full: two calls, the second on the
    copy allocated at position 2. *)
Example iterate_binary_func_run :
  let x := NdArray [4]%nat [true; true; true; false] in
  let o := NdArray [4]%nat [false; false; false; false] in
  let y := NdArray [4]%nat [true; true; false; false] in
  let z := NdArray [4]%nat [false; false; false; false] in
  let fp := NdArray [3]%nat [true; true; true] in
  _iterate_binary_func erosion_func 0%nat [(fp, 1); (fp, 2)] 1%nat
    (State [x; o] []) =
  (Ok 1%nat,
   State [x; z; y] [Call 0%nat 1%nat x o fp 1; Call 2%nat 1%nat y y fp 2]).
Proof. vm_compute. reflexivity. Qed.

(** ** Claims on opening and closing *)

(** C4. On a live image and a well-formed footprint, [binary_opening]
    is [binary_erosion] without [out] followed by [binary_dilation] of
    its result with the same footprint and the caller's [out]; the array
    returned holds the dilation of the erosion of the image.  The erosion
    writes into an object [mid] that did not exist before the call: it is
    not the caller's [out], not the array finally returned, every reducer
    call of the erosion has it as output, and the arrays that existed
    before the call are unchanged when the erosion ends. *)
Theorem binary_opening_erosion_then_dilation s image x fp out :
  heap s !! image = Some x →
  footprint_ok (ndim x) fp →
  out_ok s (shape x) out →
  ∃ mid s1 r s',
    binary_erosion image fp None s = (Ok mid, s1) ∧
    binary_dilation mid fp out s1 = (Ok r, s') ∧
    binary_opening image fp out s = (Ok r, s') ∧
    heap s1 !! mid = Some (erosion fp x) ∧
    heap s' !! r = Some (dilation fp (erosion fp x)) ∧
    mid = length (heap s) ∧ out ≠ Some mid ∧ r ≠ mid ∧
    (∃ cs, trace s1 = trace s ++ cs ∧ Forall (λ c, c_dst c = mid) cs) ∧
    (∀ r', (r' < length (heap s))%nat → heap s1 !! r' = heap s !! r').
Proof.
  intros Hx Hfp Hout.
  destruct (binary_opening_spec image fp out s x)
    as (mid & s1 & r & s' & Hrun1 & Hpost1 & Hrun2 & Hpost2 & Hrun);
    [done..|].
  destruct Hpost1 as [Hmid Hval1 Hfr1 Hlen1 (c0 & cs & Htr & _ & Hd0 & _ & Hcs & _)].
  destruct Hpost2 as [Hr Hval2 _ _ _]. simpl in Hmid.
  apply lookup_lt_Some in Hval1 as Hlt.
  exists mid, s1, r, s'. split_and!; try done.
  - intros ->. destruct Hout as (a & Ha%lookup_lt_Some & _). lia.
  - destruct out as [o|]; simpl in *; [|lia].
    destruct Hout as (a & Ha%lookup_lt_Some & _). lia.
  - exists (c0 :: cs). split; [done|]. constructor; [done|].
    eapply Forall_impl; [|exact Hcs]. by intros c (? & _).
  - intros r' Hr'. apply Hfr1; [done|lia].
Qed.

Lemma binary_opening_erosion_then_dilation_witness :
  let x := NdArray [4]%nat [true; true; true; false] in
  let fp := Single (NdArray [3]%nat [true; true; true]) in
  let s := State [x; full [4]%nat false] [] in
  let out := Some 1%nat in
  ∃ mid s1 r s',
    binary_erosion 0%nat fp None s = (Ok mid, s1) ∧
    binary_dilation mid fp out s1 = (Ok r, s') ∧
    binary_opening 0%nat fp out s = (Ok r, s') ∧
    heap s1 !! mid = Some (erosion fp x) ∧
    heap s' !! r = Some (dilation fp (erosion fp x)) ∧
    mid = length (heap s) ∧ out ≠ Some mid ∧ r ≠ mid ∧
    (∃ cs, trace s1 = trace s ++ cs ∧ Forall (λ c, c_dst c = mid) cs) ∧
    (∀ r', (r' < length (heap s))%nat → heap s1 !! r' = heap s !! r').
Proof.
  intros x fp s out.
  apply (binary_opening_erosion_then_dilation s 0%nat x fp out).
  - reflexivity.
  - split; [reflexivity|simpl; lia].
  - exists (full [4]%nat false). split; reflexivity.
Defined.

(** C5. On a live image and a well-formed footprint, [binary_closing]
    is [binary_dilation] without [out] followed by [binary_erosion] of
    its result with the same footprint and the caller's [out]; the array
    returned holds the erosion of the dilation of the image.  The
    dilation writes into an object [mid] that did not exist before the
    call and that is neither the caller's [out] nor the array finally
    returned. *)
Theorem binary_closing_dilation_then_erosion s image x fp out :
  heap s !! image = Some x →
  footprint_ok (ndim x) fp →
  out_ok s (shape x) out →
  ∃ mid s1 r s',
    binary_dilation image fp None s = (Ok mid, s1) ∧
    binary_erosion mid fp out s1 = (Ok r, s') ∧
    binary_closing image fp out s = (Ok r, s') ∧
    heap s1 !! mid = Some (dilation fp x) ∧
    heap s' !! r = Some (erosion fp (dilation fp x)) ∧
    mid = length (heap s) ∧ out ≠ Some mid ∧ r ≠ mid ∧
    (∃ cs, trace s1 = trace s ++ cs ∧ Forall (λ c, c_dst c = mid) cs) ∧
    (∀ r', (r' < length (heap s))%nat → heap s1 !! r' = heap s !! r').
Proof.
  intros Hx Hfp Hout.
  destruct (binary_closing_spec image fp out s x)
    as (mid & s1 & r & s' & Hrun1 & Hpost1 & Hrun2 & Hpost2 & Hrun);
    [done..|].
  destruct Hpost1 as [Hmid Hval1 Hfr1 Hlen1 (c0 & cs & Htr & _ & Hd0 & _ & Hcs & _)].
  destruct Hpost2 as [Hr Hval2 _ _ _]. simpl in Hmid.
  apply lookup_lt_Some in Hval1 as Hlt.
  exists mid, s1, r, s'. split_and!; try done.
  - intros ->. destruct Hout as (a & Ha%lookup_lt_Some & _). lia.
  - destruct out as [o|]; simpl in *; [|lia].
    destruct Hout as (a & Ha%lookup_lt_Some & _). lia.
  - exists (c0 :: cs). split; [done|]. constructor; [done|].
    eapply Forall_impl; [|exact Hcs]. by intros c (? & _).
  - intros r' Hr'. apply Hfr1; [done|lia].
Qed.

Lemma binary_closing_dilation_then_erosion_witness :
  let x := NdArray [4]%nat [true; false; true; false] in
  let fp := Decomposed [(NdArray [3]%nat [true; true; false], 2)] in
  let s := State [x] [] in
  ∃ mid s1 r s',
    binary_dilation 0%nat fp None s = (Ok mid, s1) ∧
    binary_erosion mid fp None s1 = (Ok r, s') ∧
    binary_closing 0%nat fp None s = (Ok r, s') ∧
    heap s1 !! mid = Some (dilation fp x) ∧
    heap s' !! r = Some (erosion fp (dilation fp x)) ∧
    mid = length (heap s) ∧ None ≠ Some mid ∧ r ≠ mid ∧
    (∃ cs, trace s1 = trace s ++ cs ∧ Forall (λ c, c_dst c = mid) cs) ∧
    (∀ r', (r' < length (heap s))%nat → heap s1 !! r' = heap s !! r').
Proof.
  intros x fp s.
  apply (binary_closing_dilation_then_erosion s 0%nat x fp None).
  - reflexivity.
  - split; [done|]. repeat constructor; simpl; lia.
  - exact I.
Defined.

(** ** Claims on the returned buffer *)

(** C9. On a live image, a well-formed footprint (single or decomposed)
    and an [out] that is absent or a live array of the image's shape,
    each of the four operators returns the very object passed as [out],
    or a new object when none was passed, and that object holds the
    operator's result. *)
Theorem operators_return_filled_buffer s image x fp out :
  heap s !! image = Some x →
  footprint_ok (ndim x) fp →
  out_ok s (shape x) out →
  returns_filled binary_erosion image fp out s (erosion fp x) ∧
  returns_filled binary_dilation image fp out s (dilation fp x) ∧
  returns_filled binary_opening image fp out s (dilation fp (erosion fp x)) ∧
  returns_filled binary_closing image fp out s (erosion fp (dilation fp x)).
Proof.
  intros Hx Hfp Hout. unfold returns_filled. split_and!.
  - destruct (binary_erosion_spec image fp out s x)
      as (r & s' & Hrun & [Hr Hval _ _ _]); [done..|].
    exists r, s'. split_and!; [done..|]. destruct out; simpl in *; [done|lia].
  - destruct (binary_dilation_spec image fp out s x)
      as (r & s' & Hrun & [Hr Hval _ _ _]); [done..|].
    exists r, s'. split_and!; [done..|]. destruct out; simpl in *; [done|lia].
  - destruct (binary_opening_spec image fp out s x)
      as (mid & s1 & r & s' & _ & [_ _ _ Hlen _] & _ & [Hr Hval _ _ _] & Hrun);
      [done..|].
    exists r, s'. split_and!; [done..|]. destruct out; simpl in *; [done|lia].
  - destruct (binary_closing_spec image fp out s x)
      as (mid & s1 & r & s' & _ & [_ _ _ Hlen _] & _ & [Hr Hval _ _ _] & Hrun);
      [done..|].
    exists r, s'. split_and!; [done..|]. destruct out; simpl in *; [done|lia].
Qed.

Lemma operators_return_filled_buffer_witness :
  let x := of_rows [[true; true; true]; [true; true; false]] in
  let fp := Single (of_rows [[true; true]]) in
  let s := State [x; full [2; 3]%nat false] [] in
  let out := Some 1%nat in
  returns_filled binary_erosion 0%nat fp out s (erosion fp x) ∧
  returns_filled binary_dilation 0%nat fp out s (dilation fp x) ∧
  returns_filled binary_opening 0%nat fp out s (dilation fp (erosion fp x)) ∧
  returns_filled binary_closing 0%nat fp out s (erosion fp (dilation fp x)).
Proof.
  intros x fp s out.
  apply (operators_return_filled_buffer s 0%nat x fp out).
  - reflexivity.
  - split; [reflexivity|simpl; lia].
  - exists (full [2; 3]%nat false). split; reflexivity.
Defined.

(** C10. With a single footprint and the image object itself passed as
    [out], [binary_opening] and [binary_closing] return that object
    holding the composite result.  Exactly two reducer calls are made:
    the first reads the image and writes a new object, the second reads
    that new object, which holds the result of the first stage, and
    writes the image object; neither call has the same object as input
    and output. *)
Theorem opening_closing_image_as_out s image x fp :
  heap s !! image = Some x →
  structure_ok (ndim x) fp →
  let mid := length (heap s) in
  (∃ s' c1 c2,
     binary_opening image (Single fp) (Some image) s = (Ok image, s') ∧
     heap s' !! image = Some (dilate fp (erode fp x)) ∧
     trace s' = trace s ++ [c1; c2] ∧
     c_src c1 = image ∧ c_src_val c1 = x ∧ c_dst c1 = mid ∧
     c_src c2 = mid ∧ c_src_val c2 = erode fp x ∧ c_dst c2 = image ∧
     c_src c1 ≠ c_dst c1 ∧ c_src c2 ≠ c_dst c2) ∧
  (∃ s' c1 c2,
     binary_closing image (Single fp) (Some image) s = (Ok image, s') ∧
     heap s' !! image = Some (erode fp (dilate fp x)) ∧
     trace s' = trace s ++ [c1; c2] ∧
     c_src c1 = image ∧ c_src_val c1 = x ∧ c_dst c1 = mid ∧
     c_src c2 = mid ∧ c_src_val c2 = dilate fp x ∧ c_dst c2 = image ∧
     c_src c1 ≠ c_dst c1 ∧ c_src c2 ≠ c_dst c2).
Proof.
  intros Hx Hfp mid.
  assert (image < mid)%nat as Hlt by by eapply lookup_lt_Some.
  assert (out_ok s (shape x) (Some image)) as Hout by by exists x.
  split.
  - destruct (binary_opening_spec image (Single fp) (Some image) s x)
      as (m & s1 & r & s' & _ & Hpost1 & _ & Hpost2 & Hrun); [done..|].
    destruct Hpost1 as [Hm _ _ _ (c1 & cs1 & Htr1 & Hs1 & Hd1 & Hv1 & _ & Ha1)].
    destruct Hpost2 as [Hr Hval _ _ (c2 & cs2 & Htr2 & Hs2 & Hd2 & Hv2 & _ & Ha2)].
    simpl in *. subst m r.
    destruct cs1; [|done]. destruct cs2; [|done].
    exists s', c1, c2. rewrite Htr2, Htr1, <-app_assoc.
    split_and!; try done; fold mid; lia.
  - destruct (binary_closing_spec image (Single fp) (Some image) s x)
      as (m & s1 & r & s' & _ & Hpost1 & _ & Hpost2 & Hrun); [done..|].
    destruct Hpost1 as [Hm _ _ _ (c1 & cs1 & Htr1 & Hs1 & Hd1 & Hv1 & _ & Ha1)].
    destruct Hpost2 as [Hr Hval _ _ (c2 & cs2 & Htr2 & Hs2 & Hd2 & Hv2 & _ & Ha2)].
    simpl in *. subst m r.
    destruct cs1; [|done]. destruct cs2; [|done].
    exists s', c1, c2. rewrite Htr2, Htr1, <-app_assoc.
    split_and!; try done; fold mid; lia.
Qed.

Lemma opening_closing_image_as_out_witness :
  let x := of_rows [[true; true; true]; [true; true; false]; [true; true; true]] in
  let fp := of_rows [[false; true; false]; [true; true; true]; [false; true; false]] in
  let s := State [x] [] in
  let mid := length (heap s) in
  (∃ s' c1 c2,
     binary_opening 0%nat (Single fp) (Some 0%nat) s = (Ok 0%nat, s') ∧
     heap s' !! 0%nat = Some (dilate fp (erode fp x)) ∧
     trace s' = trace s ++ [c1; c2] ∧
     c_src c1 = 0%nat ∧ c_src_val c1 = x ∧ c_dst c1 = mid ∧
     c_src c2 = mid ∧ c_src_val c2 = erode fp x ∧ c_dst c2 = 0%nat ∧
     c_src c1 ≠ c_dst c1 ∧ c_src c2 ≠ c_dst c2) ∧
  (∃ s' c1 c2,
     binary_closing 0%nat (Single fp) (Some 0%nat) s = (Ok 0%nat, s') ∧
     heap s' !! 0%nat = Some (erode fp (dilate fp x)) ∧
     trace s' = trace s ++ [c1; c2] ∧
     c_src c1 = 0%nat ∧ c_src_val c1 = x ∧ c_dst c1 = mid ∧
     c_src c2 = mid ∧ c_src_val c2 = dilate fp x ∧ c_dst c2 = 0%nat ∧
     c_src c1 ≠ c_dst c1 ∧ c_src c2 ≠ c_dst c2).
Proof.
  intros x fp s.
  apply (opening_closing_image_as_out s 0%nat x fp).
  - reflexivity.
  - split; [reflexivity|simpl; lia].
Defined.

(** ** Malformed footprint sequences *)

Lemma grows_ret {A} (a : A) : grows (ret a).
Proof. intros s. exists []. simpl. by rewrite app_nil_r. Qed.

Lemma grows_raise {A} e : grows (@raise A e).
Proof. intros s. exists []. simpl. by rewrite app_nil_r. Qed.

Lemma grows_bind {A B} (m : M A) (k : A → M B) :
  grows m → (∀ a, grows (k a)) → grows (bind m k).
Proof.
  intros Hm Hk s. unfold bind. destruct (Hm s) as [cs Hcs].
  destruct (m s) as [[a|e|] s1]; simpl in *; [|by exists cs..].
  destruct (Hk a s1) as [cs' Hcs']. exists (cs ++ cs').
  by rewrite Hcs', Hcs, <-app_assoc.
Qed.

Lemma grows_deref r : grows (deref r).
Proof.
  intros s. exists []. unfold deref. rewrite app_nil_r.
  by destruct (heap s !! r).
Qed.

Lemma grows_alloc a : grows (alloc a).
Proof. intros s. exists []. simpl. by rewrite app_nil_r. Qed.

Lemma grows_call_reducer f src fp dst n : grows (call_reducer f src fp dst n).
Proof.
  intros s. unfold call_reducer.
  destruct (heap s !! src) as [x|]; [|exists []; simpl; by rewrite app_nil_r].
  destruct (heap s !! dst) as [o|]; [|exists []; simpl; by rewrite app_nil_r].
  exists [Call src dst x o fp n]. by destruct (f x fp n o).
Qed.

Lemma grows_iterate_rest f rest out : grows (_iterate_rest f rest out).
Proof.
  induction rest as [|[fp n] rest IH]; simpl; [apply grows_ret|].
  apply grows_bind; [apply grows_bind; [apply grows_deref|]|].
  - intros a. apply grows_alloc.
  - intros c. apply grows_bind; [apply grows_call_reducer|done].
Qed.

Lemma grows_binary_op f image fp out : grows (binary_op f image fp out).
Proof.
  apply grows_bind.
  - destruct out; simpl; [apply grows_ret|].
    apply grows_bind; [apply grows_deref|]. intros a. apply grows_alloc.
  - intros r. destruct fp as [a|[|[a n] rest]]; simpl.
    + apply grows_bind; [apply grows_call_reducer|]. intros _. apply grows_ret.
    + apply grows_raise.
    + apply grows_bind; [apply grows_call_reducer|]. intros _.
      apply grows_bind; [apply grows_iterate_rest|]. intros _. apply grows_ret.
Qed.

Lemma binary_op_empty f image out s x :
  heap s !! image = Some x →
  ∃ s', binary_op f image (Decomposed []) out s = (Raise IndexError, s') ∧
        trace s' = trace s.
Proof.
  intros Hx. unfold binary_op. destruct out as [o|]; simpl.
  - by eexists.
  - unfold bind. rewrite (deref_Ok _ _ _ Hx). simpl. by eexists.
Qed.

Lemma binary_op_first_pair f image fp0 n0 rest out s x :
  heap s !! image = Some x →
  (∀ o, out = Some o → is_Some (heap s !! o)) →
  reduces_first_pair (binary_op f image (Decomposed ((fp0, n0) :: rest)) out)
                     s image fp0 n0.
Proof.
  intros Hx Hout. unfold reduces_first_pair, binary_op.
  destruct out as [o|]; simpl.
  - destruct (Hout o eq_refl) as [a Ha].
    destruct (iterate_binary_func_spec f image fp0 n0 rest o s x a Hx Ha)
      as (res & s' & cs & Hrun & Htr & _).
    unfold bind at 1. simpl. eexists res, s', _, cs. by split_and!.
  - unfold bind at 1. unfold bind at 1. rewrite (deref_Ok _ _ _ Hx). simpl.
    destruct (iterate_binary_func_spec f image fp0 n0 rest (length (heap s))
                (State (heap s ++ [full (shape x) false]) (trace s))
                x (full (shape x) false))
      as (res & s' & cs & Hrun & Htr & _).
    { simpl. by apply lookup_app_l_Some. }
    { simpl. by apply list_lookup_middle. }
    eexists res, s', _, cs. by split_and!.
Qed.

Lemma two_stage_empty f1 f2 image out s x :
  heap s !! image = Some x →
  ∃ s', two_stage f1 f2 image (Decomposed []) out s = (Raise IndexError, s') ∧
        trace s' = trace s.
Proof.
  intros Hx. destruct (binary_op_empty f1 image None s x Hx) as (s' & Hrun & Htr).
  exists s'. split; [|done]. unfold two_stage.
  by rewrite (bind_Raise _ _ _ _ _ Hrun).
Qed.

Lemma two_stage_first_pair f1 f2 image fp0 n0 rest out s x :
  heap s !! image = Some x →
  reduces_first_pair (two_stage f1 f2 image (Decomposed ((fp0, n0) :: rest)) out)
                     s image fp0 n0.
Proof.
  intros Hx.
  destruct (binary_op_first_pair f1 image fp0 n0 rest None s x Hx)
    as (res & s1 & c0 & cs & Hrun & Htr & Hsrc & Hargs); [done|].
  unfold reduces_first_pair, two_stage. unfold bind at 1. rewrite Hrun.
  destruct res as [mid|e|]; [|by eexists _, _, c0, cs..].
  destruct (grows_bind (binary_op f2 mid (Decomposed ((fp0, n0) :: rest)) out)
              (λ o, ret o) (grows_binary_op _ _ _ _) grows_ret s1) as [cs' Hcs'].
  match goal with |- context [bind ?m ?k s1] => destruct (bind m k s1) as [res' s'] end.
  simpl in Hcs'. exists res', s', c0, (cs ++ cs'). split_and!; try done.
  by rewrite Hcs', Htr, <-app_assoc.
Qed.

(** C7, as the spec states it, fails: a sequence whose only pair has
    repeat count 0 is malformed, yet [binary_erosion] does not raise; it
    calls the reducer, which repeats the erosion until nothing changes
    and returns the result. *)
Lemma nonpositive_count_not_rejected :
  let x := NdArray [2]%nat [true; false] in
  let fp := NdArray [3]%nat [true; true; true] in
  let s := State [x] [] in
  malformed [(fp, 0)] ∧
  binary_erosion 0%nat (Decomposed [(fp, 0)]) None s =
    (Ok 1%nat,
     State [x; NdArray [2]%nat [false; false]]
           [Call 0%nat 1%nat x (full [2]%nat false) fp 0]) ∧
  ¬ fails_before_reducing (binary_erosion 0%nat (Decomposed [(fp, 0)]) None) s.
Proof.
  intros x fp s.
  assert (binary_erosion 0%nat (Decomposed [(fp, 0)]) None s =
    (Ok 1%nat,
     State [x; NdArray [2]%nat [false; false]]
           [Call 0%nat 1%nat x (full [2]%nat false) fp 0])) as Hrun
    by (vm_compute; reflexivity).
  split_and!.
  - right. constructor. simpl. lia.
  - exact Hrun.
  - intros (e & s' & Hraise & _). rewrite Hrun in Hraise. discriminate.
Qed.

(** C7, amended.  On a live image, an empty footprint sequence makes each
    of the four operators raise IndexError without any reducer call.  A
    non-empty sequence is not validated: whatever its repeat counts, each
    operator calls the reducer on the image with the first pair, passing
    the repeat count as given. *)
Theorem sequence_not_validated s image x out :
  heap s !! image = Some x →
  (∀ o, out = Some o → is_Some (heap s !! o)) →
  (∀ op, op ∈ [binary_erosion; binary_dilation; binary_opening; binary_closing] →
     ∃ s', op image (Decomposed []) out s = (Raise IndexError, s') ∧
           trace s' = trace s) ∧
  (∀ op fp0 n0 rest,
     op ∈ [binary_erosion; binary_dilation; binary_opening; binary_closing] →
     reduces_first_pair (op image (Decomposed ((fp0, n0) :: rest)) out)
                        s image fp0 n0).
Proof.
  intros Hx Hout. split.
  - intros op Hop.
    repeat (apply elem_of_cons in Hop as [->|Hop]).
    + by eapply binary_op_empty.
    + by eapply binary_op_empty.
    + by eapply two_stage_empty.
    + by eapply two_stage_empty.
    + by apply elem_of_nil in Hop.
  - intros op fp0 n0 rest Hop.
    repeat (apply elem_of_cons in Hop as [->|Hop]).
    + by eapply binary_op_first_pair.
    + by eapply binary_op_first_pair.
    + by eapply two_stage_first_pair.
    + by eapply two_stage_first_pair.
    + by apply elem_of_nil in Hop.
Qed.

Lemma sequence_not_validated_witness :
  let x := NdArray [2]%nat [true; false] in
  let s := State [x] [] in
  (∀ op, op ∈ [binary_erosion; binary_dilation; binary_opening; binary_closing] →
     ∃ s', op 0%nat (Decomposed []) None s = (Raise IndexError, s') ∧
           trace s' = trace s) ∧
  (∀ op fp0 n0 rest,
     op ∈ [binary_erosion; binary_dilation; binary_opening; binary_closing] →
     reduces_first_pair (op 0%nat (Decomposed ((fp0, n0) :: rest)) None)
                        s 0%nat fp0 n0).
Proof.
  intros x s. apply (sequence_not_validated s 0%nat x None).
  - reflexivity.
  - intros o Ho. discriminate Ho.
Defined.

(** ** Decomposed footprints and their composite *)

Lemma vadd_vzero_le p n : (length p ≤ n)%nat → vadd p (vzero n) = p.
Proof.
  unfold vadd, vzero. revert n. induction p as [|i p IH]; intros [|n] Hn;
    simpl in *; try done; [lia|].
  f_equal; [lia..|apply IH; lia].
Qed.

Lemma vadd_assoc_swap p o c : vadd (vadd p o) c = vadd p (vadd c o).
Proof.
  unfold vadd. revert o c. induction p as [|i p IH]; intros [|j o] [|k c];
    simpl; try done.
  f_equal; [lia..|apply IH].
Qed.

Lemma forallb_bind {A B} (f : B → bool) (g : A → list B) (l : list A) :
  forallb f (l ≫= g) = forallb (λ a, forallb f (g a)) l.
Proof.
  induction l as [|a l IH]; simpl; [done|].
  rewrite forallb_app. f_equal. apply IH.
Qed.

Lemma forallb_ext_elem {A} (f g : A → bool) (l : list A) :
  (∀ a, a ∈ l → f a = g a) → forallb f l = forallb g l.
Proof.
  intros H. induction l as [|a l IH]; simpl; [done|].
  rewrite H by left. f_equal. apply IH. intros b Hb. apply H. by right.
Qed.

Lemma forallb_same_elems {A} (f : A → bool) (l k : list A) :
  l ⊆ k → k ⊆ l → forallb f l = forallb f k.
Proof.
  intros H1 H2. apply eq_true_iff_eq. rewrite !forallb_elem_of. split.
  - intros H a Ha. apply H, H2, Ha.
  - intros H a Ha. apply H, H1, Ha.
Qed.

Lemma shape_run_rev r x : shape (run_rev r x) = shape x.
Proof. induction r as [|G r IH]; simpl; done. Qed.

Lemma neighbor_erode_by G y q :
  ndi.neighbor true (erode_by G y) q =
    if decide (in_bounds (shape y) q)
    then forallb (λ o, ndi.neighbor true y (vadd q o)) G
    else true.
Proof.
  unfold ndi.neighbor at 1. unfold erode_by. rewrite lookup_build.
  by case_decide.
Qed.

Lemma neighbor_out bv y q : ¬ in_bounds (shape y) q → ndi.neighbor bv y q = bv.
Proof. intros H. unfold ndi.neighbor. by rewrite lookup_px_out. Qed.

Lemma forallb_sum_rev_cons (f : list Z → bool) rank G r :
  forallb f (sum_rev rank (G :: r)) =
    forallb (λ o, forallb (λ c, f (vadd c o)) (sum_rev rank r)) G.
Proof.
  change (sum_rev rank (G :: r)) with (minkowski_sum (sum_rev rank r) G).
  unfold minkowski_sum. rewrite forallb_bind.
  apply forallb_ext_elem. intros o _. rewrite forallb_bind.
  apply forallb_ext_elem. intros c _. simpl. by rewrite andb_true_r.
Qed.

(** Wherever the erosion by the composite offsets is true, so is the
    result of the passes. *)
Lemma composite_below_passes x r q :
  forallb (λ c, ndi.neighbor true x (vadd q c)) (sum_rev (ndim x) r) = true →
  ndi.neighbor true (run_rev r x) q = true.
Proof.
  revert q. induction r as [|G r IH]; intros q H.
  - simpl in *. rewrite andb_true_r in H.
    destruct (decide (in_bounds (shape x) q)) as [Hq|Hq].
    + rewrite vadd_vzero_le in H; [done|].
      apply in_bounds_length in Hq. unfold ndim. lia.
    + by apply neighbor_out.
  - simpl. rewrite neighbor_erode_by. case_decide; [|done].
    rewrite forallb_sum_rev_cons in H. rewrite forallb_elem_of in H.
    apply forallb_elem_of. intros o Ho. apply IH.
    etrans; [|exact (H o Ho)]. apply forallb_ext_elem. intros c _.
    by rewrite vadd_assoc_swap.
Qed.

(** At an interior position the passes and the composite agree. *)
Lemma interior_passes_agree x r q :
  (length q ≤ ndim x)%nat →
  r = [] ∨ (in_bounds (shape x) q ∧ interior (shape x) r q = true) →
  ndi.neighbor true (run_rev r x) q =
    forallb (λ c, ndi.neighbor true x (vadd q c)) (sum_rev (ndim x) r).
Proof.
  revert q. induction r as [|G r IH]; intros q Hlen Hint.
  - simpl. by rewrite andb_true_r, vadd_vzero_le.
  - destruct Hint as [|[Hq Hint]]; [done|].
    rewrite forallb_sum_rev_cons. simpl run_rev.
    rewrite neighbor_erode_by, shape_run_rev, decide_True by done.
    apply forallb_ext_elem. intros o Ho.
    rewrite IH.
    + apply forallb_ext_elem. intros c _. by rewrite vadd_assoc_swap.
    + rewrite length_vadd. lia.
    + destruct r as [|G' r]; [by left|right].
      simpl in Hint. rewrite forallb_elem_of in Hint.
      specialize (Hint o Ho). apply andb_true_iff in Hint as [Hb Hi].
      apply bool_decide_eq_true in Hb. done.
Qed.

Lemma iter_swap {A} (f : A → A) n x : Nat.iter n f (f x) = f (Nat.iter n f x).
Proof. induction n as [|n IH]; simpl; [done|]. by rewrite IH. Qed.

Lemma fold_left_as_right {A B} (f : A → B → A) (l : list B) (i : A) :
  fold_left f l i = fold_right (λ b a, f a b) i (rev l).
Proof.
  revert i. induction l as [|b l IH]; intros i; simpl; [done|].
  by rewrite fold_right_app, IH.
Qed.

Lemma apply_steps_passes steps x :
  apply_steps erode steps x = run_rev (rev (passes steps)) x.
Proof.
  unfold run_rev.
  rewrite <-(fold_left_as_right (λ y G, erode_by G y)). unfold apply_steps.
  revert x. induction steps as [|[fp n] steps IH]; intros x; simpl; [done|].
  rewrite fold_left_app, IH. f_equal.
  generalize (Z.to_nat n) as m. intros m. revert x.
  induction m as [|m IHm]; intros x; simpl; [done|].
  rewrite <-IHm. symmetry. apply iter_swap.
Qed.

Lemma sequence_offsets_rev rank steps :
  sequence_offsets rank steps = sum_rev rank (rev (passes steps)).
Proof. unfold sequence_offsets, sum_rev. apply fold_left_as_right. Qed.

Lemma wf_iter_pos (f : ndarray → ndarray) n x :
  (∀ y, wf (f y)) → (0 < n)%nat → wf (Nat.iter n f x).
Proof. intros Hf Hn. destruct n; [lia|]. simpl. apply Hf. Qed.

Lemma wf_apply_steps op steps x :
  (∀ fp y, wf (op fp y)) → wf x → wf (apply_steps op steps x).
Proof.
  intros Hop. unfold apply_steps. revert x.
  induction steps as [|st steps IH]; intros x Hx; simpl; [done|].
  apply IH. by apply wf_iter.
Qed.

Lemma wf_morph op n fp x :
  (∀ a y, wf (op a y)) → footprint_ok n fp → wf (morph op fp x).
Proof.
  intros Hop Hfp. destruct fp as [a|steps]; simpl in *; [done|].
  destruct Hfp as [Hne Hok]. destruct steps as [|st steps]; [done|].
  apply Forall_cons_1 in Hok as [[_ Hn] _].
  unfold apply_steps. simpl. apply (wf_apply_steps op steps); [done|].
  apply wf_iter_pos; [done|lia].
Qed.

(** C6, as the spec states it, fails at the border.  The footprint
    [1 0 1 0 1] is the Minkowski sum of [1 0 1] with itself.  On the
    one-element image [0], erosion by the sequence gives [1]: both
    neighbors that the first pass reads are outside and count as true.
    Erosion by the composite gives [0]: its center reads the image. *)
Lemma decomposition_differs_at_border :
  let x := NdArray [1]%nat [false] in
  let g := NdArray [3]%nat [true; false; true] in
  let fc := NdArray [5]%nat [true; false; true; false; true] in
  composite_of 1 [(g, 1); (g, 1)] fc ∧
  run_on binary_erosion x (Decomposed [(g, 1); (g, 1)])
    = Ok (NdArray [1]%nat [true]) ∧
  run_on binary_erosion x (Single fc) = Ok (NdArray [1]%nat [false]) ∧
  run_on binary_erosion x (Decomposed [(g, 1); (g, 1)])
    ≠ run_on binary_erosion x (Single fc).
Proof.
  intros x g fc. split_and!.
  - by_evaluation.
  - vm_compute. reflexivity.
  - vm_compute. reflexivity.
  - vm_compute. discriminate.
Qed.

(** The result of the passes at a position inside the image is the
    conjunction of the image over the positions reached from it. *)
Lemma neighbor_run_rev x r q :
  in_bounds (shape x) q →
  ndi.neighbor true (run_rev r x) q =
    forallb (λ e, ndi.neighbor true x e) (reached (shape x) r q).
Proof.
  revert q. induction r as [|G r IH]; intros q Hq.
  - simpl. by rewrite andb_true_r.
  - simpl run_rev. rewrite neighbor_erode_by, shape_run_rev, decide_True by done.
    simpl reached. rewrite forallb_bind. apply forallb_ext_elem. intros o _.
    case_decide as Hb.
    + by apply IH.
    + simpl. apply neighbor_out. by rewrite shape_run_rev.
Qed.

Lemma reached_in_bounds sh r q e :
  in_bounds sh q → e ∈ reached sh r q → in_bounds sh e.
Proof.
  revert q. induction r as [|G r IH]; intros q Hq He; simpl in He.
  - by apply list_elem_of_singleton in He as ->.
  - apply list_elem_of_bind in He as (o & He & _).
    case_decide as Hb; [by eapply IH|by apply elem_of_nil in He].
Qed.

Lemma reached_sum rank sh r q e :
  (length q ≤ rank)%nat → e ∈ reached sh r q →
  ∃ c, c ∈ sum_rev rank r ∧ e = vadd q c.
Proof.
  revert q. induction r as [|G r IH]; intros q Hq He; simpl in He.
  - apply list_elem_of_singleton in He as ->. exists (vzero rank).
    split; [by apply list_elem_of_singleton|by rewrite vadd_vzero_le].
  - apply list_elem_of_bind in He as (o & He & Ho).
    case_decide as Hb; [|by apply elem_of_nil in He].
    destruct (IH (vadd q o)) as (c & Hc & ->); [rewrite length_vadd; lia|done|].
    exists (vadd c o). split; [|by rewrite vadd_assoc_swap].
    change (sum_rev rank (G :: r)) with (minkowski_sum (sum_rev rank r) G).
    unfold minkowski_sum. apply list_elem_of_bind. exists o. split; [|done].
    apply list_elem_of_bind. exists c. split; [|done].
    by apply list_elem_of_singleton.
Qed.

(** C6, amended.  Let every pair of a well-formed sequence apply its
    footprint once, and let [fc] be a single footprint whose offsets are
    the Minkowski sum of the offsets of the footprints of the sequence.
    Then [binary_erosion] returns for both, and at every position [p] of
    the image:
    - the erosion by the sequence is true just when the image is true at
      every position reached from [p] by adding one offset per pass, last
      pass first, without leaving the image on the way;
    - the erosion by [fc] is true just when the image is true at every
      position [p + o] inside the image, [o] an offset of [fc];
    - every position reached is such a position, so that where the
      erosion by [fc] is true the erosion by the sequence is true;
    - the two are equal when every position [p + o] inside the image is
      reached, and in particular when [p] is interior, that is when
      every position read by a pass other than the first lies inside the
      image. *)
Theorem decomposed_erosion_vs_composite s image x steps fc :
  heap s !! image = Some x →
  footprint_ok (ndim x) (Decomposed steps) →
  single_passes steps →
  structure_ok (ndim x) fc →
  composite_of (ndim x) steps fc →
  ∃ r1 s1 r2 s2 y_seq y_one,
    binary_erosion image (Decomposed steps) None s = (Ok r1, s1) ∧
    heap s1 !! r1 = Some y_seq ∧
    binary_erosion image (Single fc) None s = (Ok r2, s2) ∧
    heap s2 !! r2 = Some y_one ∧
    ∀ p, in_bounds (shape x) p →
      let via := reached (shape x) (rev (passes steps)) p in
      ∃ b_seq b_one,
        lookup_px y_seq p = Some b_seq ∧
        lookup_px y_one p = Some b_one ∧
        (b_seq = true ↔ ∀ e, e ∈ via → default true (lookup_px x e) = true) ∧
        (b_one = true ↔
           ∀ o, o ∈ footprint_offsets fc →
                default true (lookup_px x (vadd p o)) = true) ∧
        (∀ e, e ∈ via →
              in_bounds (shape x) e ∧
              ∃ o, o ∈ footprint_offsets fc ∧ e = vadd p o) ∧
        (b_one = true → b_seq = true) ∧
        ((∀ o, o ∈ footprint_offsets fc → in_bounds (shape x) (vadd p o) →
               vadd p o ∈ via) → b_seq = b_one) ∧
        (interior (shape x) (rev (passes steps)) p = true → b_seq = b_one).
Proof.
  intros Hx Hsteps _ Hfc [Hsub1 Hsub2].
  destruct (binary_erosion_spec image (Decomposed steps) None s x)
    as (r1 & s1 & Hrun1 & [_ Hval1 _ _ _]); [done..|].
  destruct (binary_erosion_spec image (Single fc) None s x)
    as (r2 & s2 & Hrun2 & [_ Hval2 _ _ _]); [done..|].
  exists r1, s1, r2, s2, (erosion (Decomposed steps) x), (erode fc x).
  split_and!; try done. intros p Hp via.
  assert (wf (erosion (Decomposed steps) x)) as Hwf.
  { eapply wf_morph; [apply wf_erode|done]. }
  pose proof (morph_shape erode shape_erode (Decomposed steps) x) as Hsh.
  destruct (lookup_px_in_bounds (erosion (Decomposed steps) x) p Hwf)
    as [b_seq Hb]; [unfold erosion; by rewrite Hsh|].
  eexists b_seq, _. split; [done|]. split; [by apply lookup_erode|].
  assert (b_seq = ndi.neighbor true (run_rev (rev (passes steps)) x) p) as ->.
  { unfold ndi.neighbor. rewrite <-apply_steps_passes.
    change (apply_steps erode steps x) with (erosion (Decomposed steps) x).
    by rewrite Hb. }
  assert (length p ≤ ndim x)%nat as Hlen.
  { apply in_bounds_length in Hp. unfold ndim. lia. }
  assert (∀ e, e ∈ via →
            in_bounds (shape x) e ∧
            ∃ o, o ∈ footprint_offsets fc ∧ e = vadd p o) as Hvia.
  { intros e He. split; [by eapply reached_in_bounds|].
    destruct (reached_sum (ndim x) _ _ _ _ Hlen He) as (c & Hc & ->).
    exists c. split; [|done]. apply Hsub2. by rewrite sequence_offsets_rev. }
  assert (ndi.neighbor true (run_rev (rev (passes steps)) x) p = true ↔
          ∀ e, e ∈ via → default true (lookup_px x e) = true) as Hseq.
  { rewrite neighbor_run_rev by done. apply forallb_elem_of. }
  assert (forallb (λ o, ndi.neighbor true x (vadd p o)) (footprint_offsets fc)
            = true ↔
          ∀ o, o ∈ footprint_offsets fc →
               default true (lookup_px x (vadd p o)) = true) as Hone
    by apply forallb_elem_of.
  assert (forallb (λ o, ndi.neighbor true x (vadd p o)) (footprint_offsets fc)
            = true →
          ndi.neighbor true (run_rev (rev (passes steps)) x) p = true) as Hle.
  { rewrite Hseq, Hone. intros H e He.
    destruct (Hvia e He) as (_ & o & Ho & ->). by apply H. }
  split_and!; try done.
  - intros Hall. apply eq_true_iff_eq. split; [|done].
    rewrite Hseq, Hone. intros H o Ho.
    destruct (decide (in_bounds (shape x) (vadd p o))) as [Hb'|Hb'].
    + by apply H, Hall.
    + by rewrite lookup_px_out.
  - intros Hint.
    rewrite (forallb_same_elems _ _ _ Hsub1 Hsub2), sequence_offsets_rev.
    apply interior_passes_agree; [done|by right].
Qed.

Lemma decomposed_erosion_vs_composite_witness :
  let x := NdArray [5]%nat [true; true; true; true; false] in
  let g1 := NdArray [3]%nat [true; true; true] in
  let g2 := NdArray [3]%nat [true; true; false] in
  let fc := NdArray [7]%nat [true; true; true; true; true; true; false] in
  let steps := [(g1, 1); (g1, 1); (g2, 1)] in
  let s := State [x] [] in
  ∃ r1 s1 r2 s2 y_seq y_one,
    binary_erosion 0%nat (Decomposed steps) None s = (Ok r1, s1) ∧
    heap s1 !! r1 = Some y_seq ∧
    binary_erosion 0%nat (Single fc) None s = (Ok r2, s2) ∧
    heap s2 !! r2 = Some y_one ∧
    ∀ p, in_bounds (shape x) p →
      let via := reached (shape x) (rev (passes steps)) p in
      ∃ b_seq b_one,
        lookup_px y_seq p = Some b_seq ∧
        lookup_px y_one p = Some b_one ∧
        (b_seq = true ↔ ∀ e, e ∈ via → default true (lookup_px x e) = true) ∧
        (b_one = true ↔
           ∀ o, o ∈ footprint_offsets fc →
                default true (lookup_px x (vadd p o)) = true) ∧
        (∀ e, e ∈ via →
              in_bounds (shape x) e ∧
              ∃ o, o ∈ footprint_offsets fc ∧ e = vadd p o) ∧
        (b_one = true → b_seq = true) ∧
        ((∀ o, o ∈ footprint_offsets fc → in_bounds (shape x) (vadd p o) →
               vadd p o ∈ via) → b_seq = b_one) ∧
        (interior (shape x) (rev (passes steps)) p = true → b_seq = b_one).
Proof.
  intros x g1 g2 fc steps s.
  apply (decomposed_erosion_vs_composite s 0%nat x steps fc).
  - reflexivity.
  - split; [done|]. repeat constructor; simpl; lia.
  - by_evaluation.
  - split; [reflexivity|simpl; lia].
  - by_evaluation.
Defined.

(** Position 2 of the five-element image of the witness is interior,
    position 1 is not. *)
Example interior_position :
  let g1 := NdArray [3]%nat [true; true; true] in
  let g2 := NdArray [3]%nat [true; true; false] in
  interior [5]%nat (rev (passes [(g1, 1); (g1, 1); (g2, 1)])) [2] = true ∧
  interior [5]%nat (rev (passes [(g1, 1); (g1, 1); (g2, 1)])) [1] = false.
Proof. split; vm_compute; reflexivity. Qed.

(** A position that is not interior and at which the sequence and the
    composite still agree on every image.  The footprint [0 1 1] reads a
    position and its right neighbor; applied twice it is [0 0 1 1 1].
    From the last position of a five-element image the second pass reads
    outside the image, yet the only position of the composite inside the
    image is the position itself, and it is reached. *)
Example reached_at_the_border :
  let g := NdArray [3]%nat [false; true; true] in
  let fc := NdArray [5]%nat [false; false; true; true; true] in
  let steps := [(g, 1); (g, 1)] in
  composite_of 1 steps fc ∧
  interior [5]%nat (rev (passes steps)) [4] = false ∧
  reached [5]%nat (rev (passes steps)) [4] = [[4]] ∧
  filter (λ q, in_bounds [5]%nat q) ((λ o, vadd [4] o) <$> footprint_offsets fc)
    = [[4]].
Proof. split_and!; [by_evaluation|vm_compute; reflexivity..]. Qed.

(** ** Erosion and dilation are adjoint *)

Lemma length_footprint_offsets fc o :
  o ∈ footprint_offsets fc → length o = ndim fc.
Proof.
  intros (k & Hk & _ & ->)%elem_of_filter_offsets.
  apply in_bounds_length in Hk.
  rewrite length_vsub, length_vadd, length_fmap. unfold vzero.
  rewrite length_replicate. unfold ndim. lia.
Qed.

Lemma lookup_px_Some_in_bounds a q b :
  lookup_px a q = Some b → in_bounds (shape a) q.
Proof.
  unfold lookup_px, in_bounds. destruct (flat_index (shape a) q); [by eexists|done].
Qed.

Lemma lookup_erode_true fc a p :
  in_bounds (shape a) p →
  lookup_px (erode fc a) p = Some true ↔
  ∀ o, o ∈ footprint_offsets fc → lookup_px a (vadd p o) ≠ Some false.
Proof.
  intros Hp. rewrite lookup_erode by done. split.
  - intros [= H] o Ho. rewrite forallb_elem_of in H. specialize (H o Ho).
    unfold ndi.neighbor in H. intros E. by rewrite E in H.
  - intros H. f_equal. apply forallb_elem_of. intros o Ho.
    specialize (H o Ho). unfold ndi.neighbor.
    by destruct (lookup_px a (vadd p o)) as [[]|].
Qed.

Lemma lookup_dilate_true fc a p :
  in_bounds (shape a) p →
  lookup_px (dilate fc a) p = Some true ↔
  ∃ o, o ∈ footprint_offsets fc ∧ lookup_px a (vsub p o) = Some true.
Proof.
  intros Hp. rewrite lookup_dilate by done. split.
  - intros [= H]. apply existsb_elem_of in H as (o & Ho & H).
    exists o. split; [done|]. unfold ndi.neighbor in H.
    by destruct (lookup_px a (vsub p o)) as [[]|].
  - intros (o & Ho & H). f_equal. apply existsb_elem_of.
    exists o. split; [done|]. unfold ndi.neighbor. by rewrite H.
Qed.

Lemma option_bool_eq (l1 l2 : option bool) :
  is_Some l1 → is_Some l2 → (l1 = Some true ↔ l2 = Some true) → l1 = l2.
Proof.
  intros [[] ->] [[] ->] [H1 H2]; try done.
  - by specialize (H1 eq_refl).
  - by specialize (H2 eq_refl).
Qed.

Lemma erode_dilate_erode fc a :
  ndim fc = ndim a → erode fc (dilate fc (erode fc a)) = erode fc a.
Proof.
  intros Hrank. apply ndarray_ext; [apply wf_erode..|done|].
  intros p Hp. simpl in Hp.
  assert (length p = ndim a) as Hlen by by apply in_bounds_length.
  apply option_bool_eq.
  { rewrite lookup_erode by done. by eexists. }
  { rewrite lookup_erode by done. by eexists. }
  rewrite !lookup_erode_true by done. split.
  - intros H o Ho E.
    apply lookup_px_Some_in_bounds in E as Hq.
    specialize (H o Ho).
    destruct (lookup_px (dilate fc (erode fc a)) (vadd p o)) as [[]|] eqn:E2;
      [|done|by rewrite lookup_dilate in E2 by done].
    apply (lookup_dilate_true fc (erode fc a) _ Hq) in E2 as (o' & Ho' & E3).
    apply lookup_px_Some_in_bounds in E3 as Hq'. simpl in Hq'.
    pose proof (proj1 (lookup_erode_true fc a _ Hq') E3) as E4.
    apply (E4 o' Ho'). rewrite vadd_vsub; [done|].
    apply in_bounds_length in Hq. apply length_footprint_offsets in Ho'.
    unfold ndim in *. lia.
  - intros H o Ho E.
    apply lookup_px_Some_in_bounds in E as Hq. simpl in Hq.
    rewrite lookup_dilate in E by done. injection E as E.
    apply not_true_iff_false in E. apply E, existsb_elem_of.
    exists o. split; [done|]. unfold ndi.neighbor.
    rewrite vsub_vadd.
    + by rewrite (proj2 (lookup_erode_true fc a p Hp) H).
    + apply length_footprint_offsets in Ho. lia.
Qed.

Lemma dilate_erode_dilate fc a :
  ndim fc = ndim a → dilate fc (erode fc (dilate fc a)) = dilate fc a.
Proof.
  intros Hrank. apply ndarray_ext; [apply wf_dilate..|done|].
  intros p Hp. simpl in Hp.
  assert (length p = ndim a) as Hlen by by apply in_bounds_length.
  apply option_bool_eq.
  { rewrite lookup_dilate by done. by eexists. }
  { rewrite lookup_dilate by done. by eexists. }
  rewrite !lookup_dilate_true by done. split.
  - intros (o & Ho & E).
    apply lookup_px_Some_in_bounds in E as Hq. simpl in Hq.
    pose proof (proj1 (lookup_erode_true fc (dilate fc a) _ Hq) E o Ho) as E'.
    clear E. rename E' into E.
    rewrite vadd_vsub in E by (apply length_footprint_offsets in Ho; lia).
    rewrite lookup_dilate in E by done.
    destruct (existsb _ _) eqn:E2; [|done].
    apply existsb_elem_of in E2 as (o' & Ho' & E2).
    exists o'. split; [done|]. unfold ndi.neighbor in E2.
    by destruct (lookup_px a (vsub p o')) as [[]|].
  - intros (o & Ho & E). exists o. split; [done|].
    apply lookup_px_Some_in_bounds in E as Hq.
    apply lookup_erode_true; [done|]. intros o' Ho' E2.
    apply lookup_px_Some_in_bounds in E2 as Hq'. simpl in Hq'.
    rewrite lookup_dilate in E2 by done. injection E2 as E2.
    apply not_true_iff_false in E2. apply E2, existsb_elem_of.
    exists o'. split; [done|]. unfold ndi.neighbor.
    rewrite vsub_vadd; [by rewrite E|].
    apply in_bounds_length in Hq. apply length_footprint_offsets in Ho'.
    unfold ndim in *. lia.
Qed.

(** ** Idempotence of opening and closing *)

Lemma single_acts_as_single fc sh : acts_as_single (Single fc) fc sh.
Proof. intros y _. split; reflexivity. Qed.

Lemma one_step_acts_as_single fc sh :
  acts_as_single (Decomposed [(fc, 1)]) fc sh.
Proof. intros y _. split; reflexivity. Qed.

(** C8, as the spec states it, fails for decomposed footprints.  The
    sequence below decomposes the footprint [0 1 1] (offsets 0 and +1 are
    the Minkowski sum of the offsets -1, 0 of [1 1] and +1 of [0 0 1]).
    Opening [1 1 0 0] with it gives [0 1 0 1], and opening that again
    gives [0 0 0 1]; closing [0 1 0 0] gives [0 1 0 1] and closing that
    again gives [0 1 1 1]. *)
Lemma opening_closing_not_idempotent :
  let fp := Decomposed [(NdArray [2]%nat [true; true], 1);
                        (NdArray [3]%nat [false; false; true], 1)] in
  let x := NdArray [4]%nat [true; true; false; false] in
  let x' := NdArray [4]%nat [false; true; false; false] in
  let y := NdArray [4]%nat [false; true; false; true] in
  footprint_ok 1 fp ∧
  composite_of 1 (steps_of fp) (NdArray [3]%nat [false; true; true]) ∧
  run_on binary_opening x fp = Ok y ∧
  run_on binary_opening y fp = Ok (NdArray [4]%nat [false; false; false; true]) ∧
  run_on binary_closing x' fp = Ok y ∧
  run_on binary_closing y fp = Ok (NdArray [4]%nat [false; true; true; true]).
Proof.
  intros fp x x' y. split_and!.
  - by_evaluation.
  - by_evaluation.
  - vm_compute. reflexivity.
  - vm_compute. reflexivity.
  - vm_compute. reflexivity.
  - vm_compute. reflexivity.
Qed.

(** C8, amended.  Let the footprint argument be well-formed and act as a
    single footprint [fc] of the image's rank on arrays of the image's
    shape: it is [fc] itself, or a sequence whose erosion and dilation
    are those of [fc].  Then opening the result of [binary_opening] again
    returns an array with the same content, and likewise for
    [binary_closing]. *)
Theorem opening_closing_idempotent s image x fp fc :
  heap s !! image = Some x →
  footprint_ok (ndim x) fp →
  structure_ok (ndim x) fc →
  acts_as_single fp fc (shape x) →
  (∃ r1 s1 r2 s2 y,
     binary_opening image fp None s = (Ok r1, s1) ∧
     heap s1 !! r1 = Some y ∧
     binary_opening r1 fp None s1 = (Ok r2, s2) ∧
     heap s2 !! r2 = Some y) ∧
  (∃ r1 s1 r2 s2 y,
     binary_closing image fp None s = (Ok r1, s1) ∧
     heap s1 !! r1 = Some y ∧
     binary_closing r1 fp None s1 = (Ok r2, s2) ∧
     heap s2 !! r2 = Some y).
Proof.
  intros Hx Hfp [Hrank _] Hact.
  pose proof (morph_shape erode shape_erode fp) as Hse.
  pose proof (morph_shape dilate shape_dilate fp) as Hsd.
  fold erosion in Hse. fold dilation in Hsd.
  split.
  - destruct (binary_opening_spec image fp None s x)
      as (m1 & t1 & r1 & s1 & _ & _ & _ & [_ Hv1 _ _ _] & Hrun1); [done..|].
    set (y := dilation fp (erosion fp x)) in *.
    assert (shape y = shape x) as Hy by (unfold y; by rewrite Hsd, Hse).
    destruct (binary_opening_spec r1 fp None s1 y)
      as (m2 & t2 & r2 & s2 & _ & _ & _ & [_ Hv2 _ _ _] & Hrun2);
      [done|unfold ndim; by rewrite Hy|done|].
    exists r1, s1, r2, s2, y. split_and!; try done.
    rewrite Hv2. f_equal.
    destruct (Hact x eq_refl) as [Hex _].
    destruct (Hact (erosion fp x) (Hse x)) as [_ Hdx].
    destruct (Hact y Hy) as [Hey _].
    destruct (Hact (erosion fp y)) as [_ Hdy]; [by rewrite Hse|].
    rewrite Hdy, Hey. unfold y. rewrite Hdx, Hex.
    by rewrite erode_dilate_erode.
  - destruct (binary_closing_spec image fp None s x)
      as (m1 & t1 & r1 & s1 & _ & _ & _ & [_ Hv1 _ _ _] & Hrun1); [done..|].
    set (y := erosion fp (dilation fp x)) in *.
    assert (shape y = shape x) as Hy by (unfold y; by rewrite Hse, Hsd).
    destruct (binary_closing_spec r1 fp None s1 y)
      as (m2 & t2 & r2 & s2 & _ & _ & _ & [_ Hv2 _ _ _] & Hrun2);
      [done|unfold ndim; by rewrite Hy|done|].
    exists r1, s1, r2, s2, y. split_and!; try done.
    rewrite Hv2. f_equal.
    destruct (Hact x eq_refl) as [_ Hdx].
    destruct (Hact (dilation fp x) (Hsd x)) as [Hex _].
    destruct (Hact y Hy) as [_ Hdy].
    destruct (Hact (dilation fp y)) as [Hey _]; [by rewrite Hsd|].
    rewrite Hey, Hdy. unfold y. rewrite Hex, Hdx.
    by rewrite dilate_erode_dilate.
Qed.

Lemma opening_closing_idempotent_witness :
  let x := of_rows [[true; true; false; true];
                    [true; true; false; false];
                    [false; true; true; true]] in
  let fc := of_rows [[false; true; false]; [true; true; true];
                     [false; true; false]] in
  let s := State [x] [] in
  (∃ r1 s1 r2 s2 y,
     binary_opening 0%nat (Single fc) None s = (Ok r1, s1) ∧
     heap s1 !! r1 = Some y ∧
     binary_opening r1 (Single fc) None s1 = (Ok r2, s2) ∧
     heap s2 !! r2 = Some y) ∧
  (∃ r1 s1 r2 s2 y,
     binary_closing 0%nat (Single fc) None s = (Ok r1, s1) ∧
     heap s1 !! r1 = Some y ∧
     binary_closing r1 (Single fc) None s1 = (Ok r2, s2) ∧
     heap s2 !! r2 = Some y).
Proof.
  intros x fc s.
  apply (opening_closing_idempotent s 0%nat x (Single fc) fc).
  - reflexivity.
  - split; [reflexivity|simpl; lia].
  - split; [reflexivity|simpl; lia].
  - apply single_acts_as_single.
Defined.


(** * Further properties *)

(** ** Running an operator on an image *)

Lemma run_on_Ok op x fp r s' y :
  op 0%nat fp None (State [x] []) = (Ok r, s') →
  heap s' !! r = Some y →
  run_on op x fp = Ok y.
Proof.
  intros Hrun Hy. unfold run_on. rewrite (bind_Ok _ _ _ _ _ Hrun).
  by rewrite (deref_Ok _ _ _ Hy).
Qed.

Lemma run_on_erosion x fp :
  footprint_ok (ndim x) fp → run_on binary_erosion x fp = Ok (erosion fp x).
Proof.
  intros Hfp.
  destruct (binary_erosion_spec 0%nat fp None (State [x] []) x)
    as (r & s' & Hrun & [_ Hval _ _ _]); [done..|].
  by eapply run_on_Ok.
Qed.

Lemma run_on_dilation x fp :
  footprint_ok (ndim x) fp → run_on binary_dilation x fp = Ok (dilation fp x).
Proof.
  intros Hfp.
  destruct (binary_dilation_spec 0%nat fp None (State [x] []) x)
    as (r & s' & Hrun & [_ Hval _ _ _]); [done..|].
  by eapply run_on_Ok.
Qed.

Lemma run_on_opening x fp :
  footprint_ok (ndim x) fp →
  run_on binary_opening x fp = Ok (dilation fp (erosion fp x)).
Proof.
  intros Hfp.
  destruct (binary_opening_spec 0%nat fp None (State [x] []) x)
    as (m & s1 & r & s' & _ & _ & _ & [_ Hval _ _ _] & Hrun); [done..|].
  by eapply run_on_Ok.
Qed.

Lemma run_on_closing x fp :
  footprint_ok (ndim x) fp →
  run_on binary_closing x fp = Ok (erosion fp (dilation fp x)).
Proof.
  intros Hfp.
  destruct (binary_closing_spec 0%nat fp None (State [x] []) x)
    as (m & s1 & r & s' & _ & _ & _ & [_ Hval _ _ _] & Hrun); [done..|].
  by eapply run_on_Ok.
Qed.

Lemma shape_erosion fp x : shape (erosion fp x) = shape x.
Proof. apply (morph_shape erode shape_erode). Qed.

Lemma shape_dilation fp x : shape (dilation fp x) = shape x.
Proof. apply (morph_shape dilate shape_dilate). Qed.

(** ** The driver as a fold *)

(** X1. Whatever the reducer, on a live image and a live [out] the
    outcome of [_iterate_binary_func] is that of calling the reducer on
    the image with the first pair and then, pair by pair, on the value
    the previous call left in [out]: when every call returns the driver
    returns [out] holding the last value, and otherwise it raises what
    the first failing call raised (IndexError on an empty sequence). *)
Theorem iterate_binary_func_fold f image out s x o steps :
  heap s !! image = Some x →
  heap s !! out = Some o →
  ∃ s',
    _iterate_binary_func f image steps out s =
      (match driver_value f x o steps with
       | Ok _ => Ok out
       | Raise e => Raise e
       | Diverge => Diverge
       end, s') ∧
    ∀ y, driver_value f x o steps = Ok y → heap s' !! out = Some y.
Proof.
  intros Hx Ho. destruct steps as [|[fp n] rest].
  { exists s. split; [done|]. intros y [=]. }
  destruct (iterate_binary_func_spec f image fp n rest out s x o Hx Ho)
    as (res & s' & cs & Hrun & _ & _ & _ & _ & _ & Hval).
  exists s'. rewrite Hrun.
  destruct (driver_value f x o ((fp, n) :: rest)) as [y|e|].
  - destruct Hval as (-> & Hy & _). split; [done|]. by intros ? [= <-].
  - subst res. split; [done|]. intros ? [=].
  - subst res. split; [done|]. intros ? [=].
Qed.

Lemma iterate_binary_func_fold_witness :
  let x := NdArray [4]%nat [true; true; true; false] in
  let o := full [4]%nat false in
  let fp := NdArray [3]%nat [true; true; true] in
  let steps := [(fp, 1); (NdArray [2; 2]%nat [true; true; true; true], 1)] in
  let s := State [x; o] [] in
  ∃ s',
    _iterate_binary_func erosion_func 0%nat steps 1%nat s =
      (match driver_value erosion_func x o steps with
       | Ok _ => Ok 1%nat
       | Raise e => Raise e
       | Diverge => Diverge
       end, s') ∧
    ∀ y, driver_value erosion_func x o steps = Ok y → heap s' !! 1%nat = Some y.
Proof.
  intros x o fp steps s.
  apply (iterate_binary_func_fold erosion_func 0%nat 1%nat s x o steps).
  - reflexivity.
  - reflexivity.
Defined.

(** ** Only the memory of the output array is written *)

Lemma store_length cs d mem : length (Views.store cs d mem) = length mem.
Proof.
  revert d mem. induction cs as [|c cs IH]; intros [|b d] mem; simpl; try done.
  by rewrite IH, length_insert.
Qed.

Lemma store_frame cs d mem a :
  a ∉ cs → Views.store cs d mem !! a = mem !! a.
Proof.
  revert d mem. induction cs as [|c cs IH]; intros [|b d] mem Ha; simpl;
    try done.
  apply not_elem_of_cons in Ha as [Hne Ha]. rewrite IH by done.
  by apply list_lookup_insert_ne.
Qed.

Lemma writes_within_refl W s : Views.writes_within W s s.
Proof. by split_and!. Qed.

(** Two runs in a row: cells that existed before the first run and are
    written by the second count for the whole. *)
Lemma writes_within_trans W W' s1 s2 s3 :
  Views.writes_within W s1 s2 → Views.writes_within W' s2 s3 →
  (∀ a, a ∈ W' → (a < length (Views.cells s1))%nat → a ∈ W) →
  Views.writes_within W s1 s3.
Proof.
  intros (Hp1 & Hl1 & Hf1) (Hp2 & Hl2 & Hf2) HW. split_and!.
  - by etrans.
  - lia.
  - intros a Ha Hn. rewrite Hf2; [by apply Hf1|lia|].
    intros Hin. by apply Hn, HW.
Qed.

Lemma writes_within_bind {A B} W (m : Views.M A) (k : A → Views.M B) s :
  Views.writes_within W s (m s).2 →
  (∀ a s1, m s = (Ok a, s1) → Views.writes_within W s1 (k a s1).2) →
  Views.writes_within W s (Views.bind m k s).2.
Proof.
  intros Hm Hk. unfold Views.bind. destruct (m s) as [[a|e|] s1] eqn:E;
    simpl in *; [|done..].
  eapply writes_within_trans; [done|by apply Hk|done].
Qed.

Lemma alloc_writes W a s : Views.writes_within W s (Views.alloc a s).2.
Proof.
  simpl. split_and!; simpl.
  - by apply prefix_app_r.
  - rewrite length_app. lia.
  - intros c Hc _. by apply lookup_app_l.
Qed.

Lemma deref_state r s : (Views.deref r s).2 = s.
Proof. unfold Views.deref. by destruct (_ ≫= _). Qed.

Lemma copy_writes W r s : Views.writes_within W s (Views.copy r s).2.
Proof.
  apply writes_within_bind.
  - rewrite deref_state. apply writes_within_refl.
  - intros a s1 _. apply alloc_writes.
Qed.

Lemma call_reducer_writes f src fp dst n s vd :
  Views.arrays s !! dst = Some vd →
  Views.writes_within (Views.v_cells vd) s
    (Views.call_reducer f src fp dst n s).2.
Proof.
  intros Hd. unfold Views.call_reducer. rewrite Hd.
  destruct (_ ≫= _) as [x|]; [|apply writes_within_refl].
  destruct (Views.load _ vd) as [o|]; [|apply writes_within_refl].
  destruct (f x fp n o) as [y|e|]; simpl; try apply writes_within_refl.
  split_and!; simpl.
  - done.
  - by rewrite store_length.
  - intros a _ Ha. by apply store_frame.
Qed.

(** The array [out] denotes is still the same after a run that writes
    within some set of cells. *)
Lemma writes_within_live W s s' r v :
  Views.writes_within W s s' →
  Views.arrays s !! r = Some v → Views.arrays s' !! r = Some v.
Proof. intros (Hp & _ & _) Hr. by eapply prefix_lookup_Some. Qed.

Lemma iterate_rest_writes f rest out s vd :
  Views.arrays s !! out = Some vd →
  Views.writes_within (Views.v_cells vd) s (Views._iterate_rest f rest out s).2.
Proof.
  revert s. induction rest as [|[fp n] rest IH]; intros s Hout; simpl.
  { apply writes_within_refl. }
  apply writes_within_bind; [apply copy_writes|]. intros c s1 Hc.
  assert (Views.arrays s1 !! out = Some vd) as Hout1.
  { eapply writes_within_live; [|done].
    replace s1 with (Views.copy out s).2 by by rewrite Hc.
    apply (copy_writes []). }
  apply writes_within_bind; [by apply call_reducer_writes|]. intros [] s2 Hr.
  apply IH. eapply writes_within_live; [|done].
  replace s2 with (Views.call_reducer f c fp out n s1).2 by by rewrite Hr.
  by apply call_reducer_writes.
Qed.

Lemma iterate_binary_func_writes f image steps out s vd :
  Views.arrays s !! out = Some vd →
  Views.writes_within (Views.v_cells vd) s
    (Views._iterate_binary_func f image steps out s).2.
Proof.
  intros Hout. destruct steps as [|[fp n] rest]; simpl.
  { apply writes_within_refl. }
  apply writes_within_bind; [by apply call_reducer_writes|]. intros [] s1 Hr.
  assert (Views.arrays s1 !! out = Some vd) as Hout1.
  { eapply writes_within_live; [|done].
    replace s1 with (Views.call_reducer f image fp out n s).2 by by rewrite Hr.
    by apply call_reducer_writes. }
  apply writes_within_bind; [by apply iterate_rest_writes|]. intros [] s2 _.
  apply writes_within_refl.
Qed.

(** Once [out] exists, erosion and dilation write within its cells. *)
Lemma binary_op_body_writes f image fp o s vd :
  Views.arrays s !! o = Some vd →
  Views.writes_within (Views.v_cells vd) s
    (match fp with
     | Decomposed steps => Views._iterate_binary_func f image steps o
     | Single a => Views.bind (Views.call_reducer f image a o 1)
                              (λ _, Views.ret o)
     end s).2.
Proof.
  intros Ho. destruct fp as [a|steps].
  - apply writes_within_bind; [by apply call_reducer_writes|].
    intros [] s1 _. apply writes_within_refl.
  - by apply iterate_binary_func_writes.
Qed.

Lemma binary_op_writes f image fp out s :
  (∀ o, out = Some o → is_Some (Views.arrays s !! o)) →
  Views.writes_within (Views.out_cells s out) s
    (Views.binary_op f image fp out s).2.
Proof.
  intros Hout. unfold Views.binary_op. destruct out as [o|]; simpl.
  - destruct (Hout o eq_refl) as [vd Hvd]. rewrite Hvd. simpl.
    unfold Views.bind at 1. simpl.
    by apply (binary_op_body_writes f image fp o s vd).
  - unfold Views.bind at 1. unfold Views.bind at 1.
    pose proof (deref_state image s) as Hs.
    destruct (Views.deref image s) as [[a|e|] s0]; simpl in Hs; subst s0;
      simpl; [|apply writes_within_refl..].
    set (s1 := (Views.np_empty (shape a) s).2).
    set (vd := Views.View (shape a)
                 (seq (length (Views.cells s))
                      (length (data (full (shape a) false))))).
    assert (Views.arrays s1 !! length (Views.arrays s) = Some vd) as Hvd
      by by apply list_lookup_middle.
    eapply (writes_within_trans _ (Views.v_cells vd) s s1).
    + apply alloc_writes.
    + by apply (binary_op_body_writes f image fp _ s1 vd).
    + intros c Hc Hlt. simpl in Hc. apply elem_of_seq in Hc. lia.
Qed.

Lemma out_cells_live W s s' out :
  Views.writes_within W s s' →
  (∀ o, out = Some o → is_Some (Views.arrays s !! o)) →
  Views.out_cells s' out = Views.out_cells s out ∧
  (∀ o, out = Some o → is_Some (Views.arrays s' !! o)).
Proof.
  intros Hw Hout. destruct out as [o|]; simpl; [|done].
  destruct (Hout o eq_refl) as [vd Hvd].
  pose proof (writes_within_live _ _ _ _ _ Hw Hvd) as Hvd'.
  unfold ref in *. rewrite Hvd, Hvd'. split; [done|].
  intros ? [= <-]. by eexists.
Qed.

Lemma two_stage_writes f1 f2 image fp out s :
  (∀ o, out = Some o → is_Some (Views.arrays s !! o)) →
  Views.writes_within (Views.out_cells s out) s
    (Views.bind (Views.binary_op f1 image fp None)
       (λ mid, Views.bind (Views.binary_op f2 mid fp out)
                 (λ r, Views.ret r)) s).2.
Proof.
  intros Hout.
  assert (Views.writes_within (Views.out_cells s out) s
            (Views.binary_op f1 image fp None s).2) as H1.
  { eapply writes_within_trans.
    - apply writes_within_refl.
    - by apply (binary_op_writes f1 image fp None s).
    - intros a Ha. by apply elem_of_nil in Ha. }
  apply writes_within_bind; [done|]. intros mid s1 Hrun.
  replace s1 with (Views.binary_op f1 image fp None s).2 in * by by rewrite Hrun.
  destruct (out_cells_live _ _ _ out H1 Hout) as [<- Hout1].
  apply writes_within_bind; [by apply binary_op_writes|].
  intros r s2 _. apply writes_within_refl.
Qed.

(** An array with no cell in the written set shows what it showed. *)
Lemma writes_within_load W s s' v x :
  Views.writes_within W s s' →
  (∀ a, a ∈ Views.v_cells v → a ∉ W) →
  Views.load (Views.cells s) v = Some x →
  Views.load (Views.cells s') v = Some x.
Proof.
  intros (_ & _ & Hf) Hdis Hx. rewrite <-Hx. unfold Views.load. f_equal.
  apply Forall_mapM_ext, Forall_forall. intros a Ha%list_elem_of_In.
  apply Hf; [|by apply Hdis].
  unfold Views.load in Hx.
  destruct (mapM _ _) as [d|] eqn:E; [|done].
  assert (is_Some (mapM (λ c, Views.cells s !! c) (Views.v_cells v))) as Hs
    by by eexists.
  apply mapM_is_Some_1 in Hs. rewrite Forall_forall in Hs.
  apply lookup_lt_is_Some. by apply Hs, list_elem_of_In.
Qed.

Lemma writes_within_only_out m s out :
  Views.writes_within (Views.out_cells s out) s (m s).2 →
  Views.writes_only_out m s out.
Proof.
  intros Hw. split; [done|]. intros r v x Hr Hdis Hx. split.
  - by eapply writes_within_live.
  - by eapply writes_within_load.
Qed.

(** X2. In a memory where arrays may overlap, and for every footprint
    argument, each of the four operators, whether it returns or raises,
    writes no cell that existed before the call other than the cells of
    the array passed as [out]: the arrays that existed are still there,
    and each of them that shares no cell with [out] shows what it showed
    before.  So the image is left as it was unless [out] shares memory
    with it. *)
Theorem operators_write_only_out s image fp out :
  (∀ o, out = Some o → is_Some (Views.arrays s !! o)) →
  Views.writes_only_out (Views.binary_erosion image fp out) s out ∧
  Views.writes_only_out (Views.binary_dilation image fp out) s out ∧
  Views.writes_only_out (Views.binary_opening image fp out) s out ∧
  Views.writes_only_out (Views.binary_closing image fp out) s out.
Proof.
  intros Hout. split_and!; apply writes_within_only_out.
  - by apply binary_op_writes.
  - by apply binary_op_writes.
  - by apply two_stage_writes.
  - by apply two_stage_writes.
Qed.

Lemma operators_write_only_out_witness :
  let mem := [true; true; true; false; false; false; false; false] in
  let whole := Views.View [2; 4]%nat (seq 0 8) in
  let row0 := Views.View [4]%nat (seq 0 4) in
  let row1 := Views.View [4]%nat (seq 4 4) in
  let s := Views.State mem [whole; row0; row1] in
  let fp := Decomposed [(NdArray [3]%nat [true; true; true], 1);
                        (NdArray [3]%nat [true; true; false], 1)] in
  is_Some (Views.arrays s !! 2%nat) ∧
  Views.writes_only_out (Views.binary_erosion 1%nat fp (Some 2%nat)) s (Some 2%nat) ∧
  Views.writes_only_out (Views.binary_dilation 1%nat fp (Some 2%nat)) s (Some 2%nat) ∧
  Views.writes_only_out (Views.binary_opening 1%nat fp (Some 2%nat)) s (Some 2%nat) ∧
  Views.writes_only_out (Views.binary_closing 1%nat fp (Some 2%nat)) s (Some 2%nat).
Proof.
  intros mem whole row0 row1 s fp. split; [by eexists|].
  apply (operators_write_only_out s 1%nat fp (Some 2%nat)).
  intros o [= <-]. by eexists.
Defined.

(** The run of the witness above for the erosion.  The image is the
    first row of a 2x4 array and [out] is its second row: the image is
    left as it was, and the 2x4 array, which shares the cells of [out],
    now shows the result in its second row.  With the image itself (or
    [image[:]]) as [out], the image is overwritten. *)
Example views_of_one_array :
  let mem := [true; true; true; false; false; false; false; false] in
  let whole := Views.View [2; 4]%nat (seq 0 8) in
  let row0 := Views.View [4]%nat (seq 0 4) in
  let row1 := Views.View [4]%nat (seq 4 4) in
  let s := Views.State mem [whole; row0; row1] in
  let fp := Single (NdArray [3]%nat [true; true; true]) in
  let s1 := (Views.binary_erosion 1%nat fp (Some 2%nat) s).2 in
  let s2 := (Views.binary_erosion 1%nat fp (Some 1%nat) s).2 in
  Views.load (Views.cells s1) row0
    = Some (NdArray [4]%nat [true; true; true; false]) ∧
  Views.load (Views.cells s1) whole
    = Some (of_rows [[true; true; true; false]; [true; true; false; false]]) ∧
  Views.load (Views.cells s2) row0
    = Some (NdArray [4]%nat [true; true; false; false]).
Proof. split_and!; vm_compute; reflexivity. Qed.

(** ** Sequences compose *)

Lemma apply_steps_app op steps1 steps2 x :
  apply_steps op (steps1 ++ steps2) x =
    apply_steps op steps2 (apply_steps op steps1 x).
Proof. unfold apply_steps. apply fold_left_app. Qed.

Lemma footprint_ok_app n steps1 steps2 :
  footprint_ok n (Decomposed steps1) → footprint_ok n (Decomposed steps2) →
  footprint_ok n (Decomposed (steps1 ++ steps2)).
Proof.
  intros [Hne1 Hok1] [Hne2 Hok2]. split.
  - destruct steps1; [done|]. simpl. discriminate.
  - by apply Forall_app.
Qed.

(** X3. For well-formed sequences [steps1] and [steps2], eroding with
    [steps1] and then eroding the result with [steps2] gives the same
    array as one call of [binary_erosion] with the concatenated
    sequence; likewise for [binary_dilation]. *)
Theorem sequences_concatenate x steps1 steps2 :
  footprint_ok (ndim x) (Decomposed steps1) →
  footprint_ok (ndim x) (Decomposed steps2) →
  (∃ y z,
     run_on binary_erosion x (Decomposed steps1) = Ok y ∧
     run_on binary_erosion y (Decomposed steps2) = Ok z ∧
     run_on binary_erosion x (Decomposed (steps1 ++ steps2)) = Ok z) ∧
  (∃ y z,
     run_on binary_dilation x (Decomposed steps1) = Ok y ∧
     run_on binary_dilation y (Decomposed steps2) = Ok z ∧
     run_on binary_dilation x (Decomposed (steps1 ++ steps2)) = Ok z).
Proof.
  intros H1 H2. pose proof (footprint_ok_app _ _ _ H1 H2) as H12. split.
  - exists (erosion (Decomposed steps1) x),
           (erosion (Decomposed steps2) (erosion (Decomposed steps1) x)).
    split_and!.
    + by apply run_on_erosion.
    + apply run_on_erosion. unfold ndim. by rewrite shape_erosion.
    + rewrite run_on_erosion by done. f_equal. apply apply_steps_app.
  - exists (dilation (Decomposed steps1) x),
           (dilation (Decomposed steps2) (dilation (Decomposed steps1) x)).
    split_and!.
    + by apply run_on_dilation.
    + apply run_on_dilation. unfold ndim. by rewrite shape_dilation.
    + rewrite run_on_dilation by done. f_equal. apply apply_steps_app.
Qed.

Lemma sequences_concatenate_witness :
  let x := of_rows [[true; true; true; true]; [true; true; true; false];
                    [true; true; true; true]] in
  let steps1 := [(of_rows [[true; true; true]], 1)] in
  let steps2 := [(of_rows [[true]; [true]; [true]], 1)] in
  (∃ y z,
     run_on binary_erosion x (Decomposed steps1) = Ok y ∧
     run_on binary_erosion y (Decomposed steps2) = Ok z ∧
     run_on binary_erosion x (Decomposed (steps1 ++ steps2)) = Ok z) ∧
  (∃ y z,
     run_on binary_dilation x (Decomposed steps1) = Ok y ∧
     run_on binary_dilation y (Decomposed steps2) = Ok z ∧
     run_on binary_dilation x (Decomposed (steps1 ++ steps2)) = Ok z).
Proof.
  intros x steps1 steps2.
  apply (sequences_concatenate x steps1 steps2).
  - split; [done|]. repeat constructor; simpl; lia.
  - split; [done|]. repeat constructor; simpl; lia.
Defined.

Lemma binary_op_one_pair f image fp out s :
  binary_op f image (Decomposed [(fp, 1)]) out s =
    binary_op f image (Single fp) out s.
Proof.
  unfold binary_op, _iterate_binary_func, bind. simpl.
  destruct (out_or_empty image out s) as [[o|e|] s0]; [|done..].
  by destruct (call_reducer f image fp o 1 s0) as [[[]|e|] s1].
Qed.

Lemma two_stage_one_pair f1 f2 image fp out s :
  two_stage f1 f2 image (Decomposed [(fp, 1)]) out s =
    two_stage f1 f2 image (Single fp) out s.
Proof.
  unfold two_stage, bind. rewrite binary_op_one_pair.
  destruct (binary_op f1 image (Single fp) None s) as [[mid|e|] s1]; [|done..].
  by rewrite binary_op_one_pair.
Qed.

(** X4. A sequence of one pair with repeat count 1 is the single
    footprint: each of the four operators, called with [[(fp, 1)]],
    ends as it does when called with [fp], with the same arrays in the
    store and the same reducer calls made, whatever the image, the
    footprint and [out]. *)
Theorem one_pair_sequence_is_single image fp out s :
  binary_erosion image (Decomposed [(fp, 1)]) out s
    = binary_erosion image (Single fp) out s ∧
  binary_dilation image (Decomposed [(fp, 1)]) out s
    = binary_dilation image (Single fp) out s ∧
  binary_opening image (Decomposed [(fp, 1)]) out s
    = binary_opening image (Single fp) out s ∧
  binary_closing image (Decomposed [(fp, 1)]) out s
    = binary_closing image (Single fp) out s.
Proof.
  rewrite binary_opening_unfold, binary_closing_unfold,
    binary_erosion_unfold, binary_dilation_unfold.
  split_and!; (apply binary_op_one_pair || apply two_stage_one_pair).
Qed.

(** ** Duality under complement *)

Lemma lookup_complement x p :
  lookup_px (complement x) p = negb <$> lookup_px x p.
Proof.
  unfold lookup_px, complement; simpl.
  destruct (flat_index (shape x) p); simpl; [|done].
  by rewrite list_lookup_fmap.
Qed.

Lemma complement_build sh g :
  complement (build sh g) = build sh (λ p, negb (g p)).
Proof. unfold complement, build; simpl. f_equal. by rewrite <-list_fmap_compose. Qed.

Lemma complement_involutive x : complement (complement x) = x.
Proof.
  destruct x as [sh d]. unfold complement; simpl. f_equal.
  rewrite <-list_fmap_compose. rewrite <-(list_fmap_id d) at 2.
  apply list_fmap_ext. intros _ b _. simpl. apply negb_involutive.
Qed.

Lemma negb_existsb {A} (g : A → bool) l :
  negb (existsb g l) = forallb (λ a, negb (g a)) l.
Proof.
  induction l as [|a l IH]; simpl; [done|]. by rewrite negb_orb, IH.
Qed.

Lemma symmetric_elem fp o :
  symmetric fp → o ∈ footprint_offsets fp → vneg o ∈ footprint_offsets fp.
Proof.
  unfold symmetric. rewrite Forall_forall. intros H Ho.
  by apply H, list_elem_of_In.
Qed.

Lemma erode_dual fp x :
  symmetric fp → erode fp x = complement (dilate fp (complement x)).
Proof.
  intros Hsym. unfold dilate. rewrite complement_build. simpl.
  apply build_ext. intros p _. rewrite negb_existsb.
  apply eq_true_iff_eq. rewrite !forallb_elem_of.
  assert (∀ q, ndi.neighbor true x q =
               negb (ndi.neighbor false (complement x) q)) as Hq.
  { intros q. unfold ndi.neighbor. rewrite lookup_complement.
    destruct (lookup_px x q) as [[]|]; done. }
  split.
  - intros H o Ho. rewrite <-Hq, <-vadd_vneg. apply H.
    by apply symmetric_elem.
  - intros H o Ho. rewrite Hq, <-vsub_vneg. apply H.
    by apply symmetric_elem.
Qed.

Lemma dilate_dual fp x :
  symmetric fp → dilate fp x = complement (erode fp (complement x)).
Proof.
  intros Hsym. rewrite (erode_dual fp (complement x) Hsym).
  by rewrite !complement_involutive.
Qed.

Lemma iter_dual (f g : ndarray → ndarray) n x :
  (∀ y, f y = complement (g (complement y))) →
  Nat.iter n f x = complement (Nat.iter n g (complement x)).
Proof.
  intros H. induction n as [|n IH]; simpl.
  - by rewrite complement_involutive.
  - by rewrite H, IH, complement_involutive.
Qed.

Lemma morph_dual (f g : ndarray → ndarray → ndarray) fp x :
  (∀ a y, symmetric a → f a y = complement (g a (complement y))) →
  all_symmetric fp →
  morph f fp x = complement (morph g fp (complement x)).
Proof.
  intros H Hsym. destruct fp as [a|steps]; simpl.
  - apply H. by apply Forall_cons_1 in Hsym as [? _].
  - unfold all_symmetric in Hsym. simpl in Hsym. unfold apply_steps.
    revert x. induction steps as [|[a n] steps IH]; intros x; simpl.
    + by rewrite complement_involutive.
    + apply Forall_cons_1 in Hsym as [Ha Hsym]. simpl in Ha.
      rewrite IH by done. do 2 f_equal.
      rewrite (iter_dual (f a) (g a)) by (intros y; by apply H).
      by rewrite complement_involutive.
Qed.

Lemma erosion_dual fp x :
  all_symmetric fp → erosion fp x = complement (dilation fp (complement x)).
Proof. apply morph_dual. intros a y. apply erode_dual. Qed.

Lemma dilation_dual fp x :
  all_symmetric fp → dilation fp x = complement (erosion fp (complement x)).
Proof. apply morph_dual. intros a y. apply dilate_dual. Qed.

(** X5. For a well-formed footprint argument all of whose footprints are
    symmetric about their center, [binary_erosion] of an image is the
    complement of [binary_dilation] of the complemented image, and
    [binary_opening] of an image is the complement of [binary_closing]
    of the complemented image.  The border values true for erosion and
    false for dilation are what makes this hold at the border. *)
Theorem erosion_dilation_duality x fp :
  footprint_ok (ndim x) fp →
  all_symmetric fp →
  (∃ y, run_on binary_dilation (complement x) fp = Ok y ∧
        run_on binary_erosion x fp = Ok (complement y)) ∧
  (∃ y, run_on binary_closing (complement x) fp = Ok y ∧
        run_on binary_opening x fp = Ok (complement y)).
Proof.
  intros Hfp Hsym. split.
  - eexists. split; [by apply run_on_dilation|].
    rewrite run_on_erosion by done. f_equal. by apply erosion_dual.
  - eexists. split; [by apply run_on_closing|].
    rewrite run_on_opening by done. f_equal.
    rewrite (dilation_dual fp (erosion fp x)) by done.
    rewrite (erosion_dual fp x) by done.
    by rewrite complement_involutive.
Qed.

Lemma erosion_dilation_duality_witness :
  let x := of_rows [[true; true; false; true]; [true; true; true; false];
                    [false; true; true; true]] in
  let fp := Single (of_rows [[false; true; false]; [true; true; true];
                             [false; true; false]]) in
  (∃ y, run_on binary_dilation (complement x) fp = Ok y ∧
        run_on binary_erosion x fp = Ok (complement y)) ∧
  (∃ y, run_on binary_closing (complement x) fp = Ok y ∧
        run_on binary_opening x fp = Ok (complement y)).
Proof.
  intros x fp.
  apply (erosion_dilation_duality x fp).
  - split; [reflexivity|simpl; lia].
  - by_evaluation.
Defined.

(** ** Order properties *)







Lemma vsub_vzero_le p n : (length p ≤ n)%nat → vsub p (vzero n) = p.
Proof.
  unfold vsub, vzero. revert n. induction p as [|i p IH]; intros [|n] Hn;
    simpl in *; try done; [lia|].
  f_equal; [lia..|apply IH; lia].
Qed.

(** X7. A larger footprint erodes more and dilates more: if every offset
    of [fp1] is an offset of [fp2], both of the image's rank, then every
    true pixel of the erosion by [fp2] is true in the erosion by [fp1],
    and every true pixel of the dilation by [fp1] is true in the
    dilation by [fp2]. *)
Theorem footprint_inclusion x fp1 fp2 :
  structure_ok (ndim x) fp1 → structure_ok (ndim x) fp2 →
  footprint_offsets fp1 ⊆ footprint_offsets fp2 →
  (∃ a b, run_on binary_erosion x (Single fp1) = Ok a ∧
          run_on binary_erosion x (Single fp2) = Ok b ∧ included b a) ∧
  (∃ a b, run_on binary_dilation x (Single fp1) = Ok a ∧
          run_on binary_dilation x (Single fp2) = Ok b ∧ included a b).
Proof.
  intros H1 H2 Hsub. split.
  - eexists _, _. rewrite !run_on_erosion by done. split_and!; [done..|].
    intros p Hp. simpl in *.
    apply lookup_px_Some_in_bounds in Hp as Hb. simpl in Hb.
    pose proof (proj1 (lookup_erode_true fp2 x p Hb) Hp) as H.
    apply lookup_erode_true; [done|]. intros o Ho. by apply H, Hsub.
  - eexists _, _. rewrite !run_on_dilation by done. split_and!; [done..|].
    intros p Hp. simpl in *.
    apply lookup_px_Some_in_bounds in Hp as Hb. simpl in Hb.
    apply (lookup_dilate_true fp1 x p Hb) in Hp as (o & Ho & E).
    apply lookup_dilate_true; [done|]. exists o. split; [by apply Hsub|done].
Qed.

Lemma footprint_inclusion_witness :
  let x := of_rows [[true; true; false]; [true; true; true]; [false; true; true]] in
  let fp1 := of_rows [[false; true; false]; [true; true; true]; [false; true; false]] in
  let fp2 := full [3; 3]%nat true in
  (∃ a b, run_on binary_erosion x (Single fp1) = Ok a ∧
          run_on binary_erosion x (Single fp2) = Ok b ∧ included b a) ∧
  (∃ a b, run_on binary_dilation x (Single fp1) = Ok a ∧
          run_on binary_dilation x (Single fp2) = Ok b ∧ included a b).
Proof.
  intros x fp1 fp2.
  apply (footprint_inclusion x fp1 fp2).
  - split; [reflexivity|simpl; lia].
  - split; [reflexivity|simpl; lia].
  - by_evaluation.
Defined.

(** X8. With a footprint of the image's rank whose center element is
    true, erosion only removes and dilation only adds: every true pixel
    of [binary_erosion]'s result is true in the image, and every true
    pixel of the image is true in [binary_dilation]'s result. *)
Theorem center_shrinks_and_grows x fp :
  wf x → structure_ok (ndim x) fp → contains_center fp →
  (∃ a, run_on binary_erosion x (Single fp) = Ok a ∧ included a x) ∧
  (∃ b, run_on binary_dilation x (Single fp) = Ok b ∧ included x b).
Proof.
  intros Hwf Hfp Hc. pose proof Hfp as [Hrank _]. split.
  - eexists. rewrite run_on_erosion by done. split; [done|].
    intros p Hp. simpl in *.
    apply lookup_px_Some_in_bounds in Hp as Hb. simpl in Hb.
    pose proof (proj1 (lookup_erode_true fp x p Hb) Hp _ Hc) as H.
    rewrite vadd_vzero_le in H
      by (apply in_bounds_length in Hb; unfold ndim in *; lia).
    destruct (lookup_px_in_bounds x p Hwf Hb) as [[] E]; [done|].
    by rewrite E in H.
  - eexists. rewrite run_on_dilation by done. split; [done|].
    intros p Hp. simpl in *.
    apply lookup_px_Some_in_bounds in Hp as Hb.
    apply lookup_dilate_true; [done|]. exists (vzero (ndim fp)).
    split; [done|]. rewrite vsub_vzero_le; [done|].
    apply in_bounds_length in Hb. unfold ndim in *. lia.
Qed.

Lemma center_shrinks_and_grows_witness :
  let x := of_rows [[true; true; false]; [true; true; true]; [false; true; true]] in
  let fp := of_rows [[true; true]; [true; true]] in
  (∃ a, run_on binary_erosion x (Single fp) = Ok a ∧ included a x) ∧
  (∃ b, run_on binary_dilation x (Single fp) = Ok b ∧ included x b).
Proof.
  intros x fp.
  apply (center_shrinks_and_grows x fp).
  - reflexivity.
  - split; [reflexivity|simpl; lia].
  - by_evaluation.
Defined.

Lemma opening_included fp x :
  wf x → ndim fp = ndim x → included (dilate fp (erode fp x)) x.
Proof.
  intros Hwf Hrank p Hp.
  apply lookup_px_Some_in_bounds in Hp as Hb. simpl in Hb.
  apply (lookup_dilate_true fp (erode fp x) p Hb) in Hp as (o & Ho & E).
  apply lookup_px_Some_in_bounds in E as Hq. simpl in Hq.
  pose proof (proj1 (lookup_erode_true fp x _ Hq) E o Ho) as H.
  rewrite vadd_vsub in H.
  - destruct (lookup_px_in_bounds x p Hwf Hb) as [[] E2]; [done|].
    by rewrite E2 in H.
  - apply in_bounds_length in Hb. apply length_footprint_offsets in Ho.
    unfold ndim in *. lia.
Qed.

Lemma closing_includes fp x :
  ndim fp = ndim x → included x (erode fp (dilate fp x)).
Proof.
  intros Hrank p Hp.
  apply lookup_px_Some_in_bounds in Hp as Hb.
  apply lookup_erode_true; [done|]. intros o Ho E.
  apply lookup_px_Some_in_bounds in E as Hq. simpl in Hq.
  rewrite lookup_dilate in E by done. injection E as E.
  apply not_true_iff_false in E. apply E, existsb_elem_of.
  exists o. split; [done|]. unfold ndi.neighbor.
  rewrite vsub_vadd; [by rewrite Hp|].
  apply in_bounds_length in Hb. apply length_footprint_offsets in Ho.
  unfold ndim in *. lia.
Qed.

(** X9. With a single footprint of the image's rank, opening only
    removes and closing only adds: every true pixel of
    [binary_opening]'s result is true in the image, and every true pixel
    of the image is true in [binary_closing]'s result. *)
Theorem opening_below_closing_above x fp :
  wf x → structure_ok (ndim x) fp →
  (∃ a, run_on binary_opening x (Single fp) = Ok a ∧ included a x) ∧
  (∃ b, run_on binary_closing x (Single fp) = Ok b ∧ included x b).
Proof.
  intros Hwf Hfp. pose proof Hfp as [Hrank _]. split.
  - eexists. rewrite run_on_opening by done. split; [done|].
    by apply opening_included.
  - eexists. rewrite run_on_closing by done. split; [done|].
    by apply closing_includes.
Qed.

Lemma opening_below_closing_above_witness :
  let x := of_rows [[true; true; false; true]; [true; true; false; false];
                    [false; true; true; true]] in
  let fp := of_rows [[true; true; false]] in
  (∃ a, run_on binary_opening x (Single fp) = Ok a ∧ included a x) ∧
  (∃ b, run_on binary_closing x (Single fp) = Ok b ∧ included x b).
Proof.
  intros x fp.
  apply (opening_below_closing_above x fp).
  - reflexivity.
  - split; [reflexivity|simpl; lia].
Defined.

(** X10. With a single footprint of the image's rank, eroding the
    opening gives the erosion of the image, and dilating the closing
    gives the dilation of the image. *)
Theorem erosion_of_opening x fp :
  structure_ok (ndim x) fp →
  (∃ a b, run_on binary_opening x (Single fp) = Ok a ∧
          run_on binary_erosion a (Single fp) = Ok b ∧
          run_on binary_erosion x (Single fp) = Ok b) ∧
  (∃ a b, run_on binary_closing x (Single fp) = Ok a ∧
          run_on binary_dilation a (Single fp) = Ok b ∧
          run_on binary_dilation x (Single fp) = Ok b).
Proof.
  intros Hfp. pose proof Hfp as [Hrank _]. split.
  - eexists _, _. rewrite run_on_opening by done. split_and!; [done| |].
    + by apply run_on_erosion.
    + rewrite run_on_erosion by done. f_equal. simpl.
      symmetry. by apply erode_dilate_erode.
  - eexists _, _. rewrite run_on_closing by done. split_and!; [done| |].
    + by apply run_on_dilation.
    + rewrite run_on_dilation by done. f_equal. simpl.
      symmetry. by apply dilate_erode_dilate.
Qed.

Lemma erosion_of_opening_witness :
  let x := of_rows [[true; true; false; true]; [true; true; false; false];
                    [false; true; true; true]] in
  let fp := of_rows [[false; true]; [true; true]] in
  (∃ a b, run_on binary_opening x (Single fp) = Ok a ∧
          run_on binary_erosion a (Single fp) = Ok b ∧
          run_on binary_erosion x (Single fp) = Ok b) ∧
  (∃ a b, run_on binary_closing x (Single fp) = Ok a ∧
          run_on binary_dilation a (Single fp) = Ok b ∧
          run_on binary_dilation x (Single fp) = Ok b).
Proof.
  intros x fp.
  apply (erosion_of_opening x fp).
  split; [reflexivity|simpl; lia].
Defined.

(** ** Errors of the reducer *)

Lemma erosion_func_bad_shape fp x n o :
  structure_ok (ndim x) fp → shape o ≠ shape x →
  erosion_func x fp n o = Raise RuntimeError.
Proof.
  intros [Hr Hs] Ho.
  unfold erosion_func, ndi.binary_erosion, ndi._binary_erosion.
  rewrite decide_False by (intros ?; congruence).
  rewrite decide_False by lia. by rewrite decide_True.
Qed.

Lemma dilation_func_bad_shape fp x n o :
  structure_ok (ndim x) fp → shape o ≠ shape x →
  dilation_func x fp n o = Raise RuntimeError.
Proof.
  intros [Hr Hs] Ho.
  unfold dilation_func, ndi.binary_dilation, ndi._binary_erosion.
  rewrite decide_False by lia.
  rewrite decide_False by (unfold ndim in *; simpl; intros ?; congruence).
  rewrite decide_False by (simpl; lia). by rewrite decide_True.
Qed.

Lemma erosion_func_bad_rank fp x n o :
  ndim fp ≠ ndim x → erosion_func x fp n o = Raise RuntimeError.
Proof.
  intros Hr. unfold erosion_func, ndi.binary_erosion, ndi._binary_erosion.
  by rewrite decide_True.
Qed.

Lemma dilation_func_bad_rank_uniform fp x :
  ndim fp ≠ ndim x → ∃ e, ∀ n o, dilation_func x fp n o = Raise e.
Proof.
  intros Hr. unfold dilation_func, ndi.binary_dilation, ndi._binary_erosion.
  destruct (decide (ndim fp < ndim x)%nat) as [Hlt|Hge].
  - by exists IndexError.
  - exists RuntimeError. intros n o.
    rewrite decide_True; [done|]. unfold ndim in *. by simpl.
Qed.

(** When the first reducer call raises, the operator raises the same
    exception and no array that existed before has changed. *)
Lemma binary_op_first_raises f image fp out s x e :
  heap s !! image = Some x →
  (∀ o, out = Some o → is_Some (heap s !! o)) →
  (∀ a n o, head (steps_of fp) = Some (a, n) →
            match out with
            | Some r => heap s !! r = Some o
            | None => o = full (shape x) false
            end → f x a n o = Raise e) →
  fp ≠ Decomposed [] →
  ∃ s', binary_op f image fp out s = (Raise e, s') ∧
        (length (heap s) ≤ length (heap s'))%nat ∧
        ∀ r', (r' < length (heap s))%nat → heap s' !! r' = heap s !! r'.
Proof.
  intros Hx Hout Hf Hne.
  set (r := default (length (heap s)) out).
  set (s0 := match out with
             | None => State (heap s ++ [full (shape x) false]) (trace s)
             | Some _ => s
             end).
  assert (out_or_empty image out s = (Ok r, s0)) as Hprep.
  { destruct out as [o|]; simpl; [done|].
    by rewrite (bind_Ok _ _ _ _ _ (deref_Ok _ _ _ Hx)). }
  assert (∃ o, heap s0 !! r = Some o ∧
               match out with
               | Some r => heap s !! r = Some o
               | None => o = full (shape x) false
               end) as (o & Ho & Hoo).
  { destruct out as [o|]; simpl in *.
    - destruct (Hout o eq_refl) as [a Ha]. by exists a.
    - eexists. split; [by apply list_lookup_middle|done]. }
  assert (heap s0 !! image = Some x) as Hx0.
  { destruct out; simpl; [done|]. by apply lookup_app_l_Some. }
  assert (length (heap s) ≤ length (heap s0))%nat as Hlen0.
  { destruct out; simpl; [done|]. rewrite length_app. lia. }
  assert (∀ r', (r' < length (heap s))%nat → heap s0 !! r' = heap s !! r')
    as Hfr0.
  { intros r' Hr'. destruct out; simpl; [done|]. by apply lookup_app_l. }
  unfold binary_op. rewrite (bind_Ok _ _ _ _ _ Hprep).
  destruct fp as [a|[|[a n] rest]]; [|done|].
  - unfold bind. rewrite (call_reducer_eq f image a r 1 s0 x o Hx0 Ho).
    rewrite (Hf a 1 o) by done. simpl. eexists. by split_and!.
  - unfold _iterate_binary_func, bind.
    rewrite (call_reducer_eq f image a r n s0 x o Hx0 Ho).
    rewrite (Hf a n o) by done. simpl. eexists. by split_and!.
Qed.

(** X11. When [out] is a live array whose shape is not the image's, each
    of the four operators raises the reducer's RuntimeError, for every
    well-formed footprint argument, and no array that existed before the
    call has changed; in particular [out] holds what it held. *)
Theorem wrong_out_shape_raises s image x fp o a :
  heap s !! image = Some x →
  footprint_ok (ndim x) fp →
  heap s !! o = Some a →
  shape a ≠ shape x →
  ∀ op, op ∈ [binary_erosion; binary_dilation; binary_opening; binary_closing] →
    ∃ s', op image fp (Some o) s = (Raise RuntimeError, s') ∧
          ∀ r', (r' < length (heap s))%nat → heap s' !! r' = heap s !! r'.
Proof.
  intros Hx Hfp Ho Hsh op Hop.
  assert (fp ≠ Decomposed []) as Hne by (intros ->; by destruct Hfp).
  assert (∀ b n, head (steps_of fp) = Some (b, n) → structure_ok (ndim x) b)
    as Hhead.
  { intros b n. destruct fp as [c|[|[c k] rest]]; simpl; intros [=]; subst.
    - done.
    - destruct Hfp as [_ Hok]. by apply Forall_cons_1 in Hok as [[? _] _]. }
  assert (∀ f, (∀ b y n c, structure_ok (ndim y) b → shape c ≠ shape y →
                           f y b n c = Raise RuntimeError) →
            ∀ im t y, heap t !! im = Some y → shape y = shape x →
              heap t !! o = Some a →
              ∃ s', binary_op f im fp (Some o) t = (Raise RuntimeError, s') ∧
                    (length (heap t) ≤ length (heap s'))%nat ∧
                    ∀ r', (r' < length (heap t))%nat →
                          heap s' !! r' = heap t !! r') as Hgen.
  { intros f Hf im t y Hy Hys Hot.
    apply (binary_op_first_raises f im fp (Some o) t y); try done.
    - intros ? [= <-]. by eexists.
    - intros b n c Hb Hc. apply Hf.
      + unfold ndim. rewrite Hys. by eapply Hhead.
      + assert (Some c = Some a) as [= ->] by (rewrite <-Hc; exact Hot).
        by rewrite Hys. }
  assert (∀ f1 f2 op1,
            (∀ b y n c, structure_ok (ndim y) b → shape c = shape y → 1 <= n →
                        f1 y b n c = Ok (Nat.iter (Z.to_nat n) (op1 b) y)) →
            (∀ b y, shape (op1 b y) = shape y) →
            (∀ b y n c, structure_ok (ndim y) b → shape c ≠ shape y →
                        f2 y b n c = Raise RuntimeError) →
            ∃ s', two_stage f1 f2 image fp (Some o) s = (Raise RuntimeError, s') ∧
                  ∀ r', (r' < length (heap s))%nat →
                        heap s' !! r' = heap s !! r') as Hgen2.
  { intros f1 f2 op1 Hf1 Hshape Hf2.
    destruct (binary_op_spec f1 op1 Hf1 Hshape image fp None s x)
      as (mid & s1 & Hrun1 & [Hmid Hv1 Hfr1 Hlen1 _]); [done..|].
    simpl in Hmid. apply lookup_lt_Some in Ho as Hlt.
    destruct (Hgen f2 Hf2 mid s1 (morph op1 fp x)) as (s' & Hrun2 & _ & Hfr2).
    - done.
    - by apply morph_shape.
    - rewrite Hfr1 by (done || lia). done.
    - exists s'. split.
      + unfold two_stage. rewrite (bind_Ok _ _ _ _ _ Hrun1).
        by rewrite (bind_Raise _ _ _ _ _ Hrun2).
      + intros r' Hr'. rewrite Hfr2 by lia. apply Hfr1; [done|lia]. }
  repeat (apply elem_of_cons in Hop as [->|Hop]).
  - destruct (Hgen erosion_func erosion_func_bad_shape image s x)
      as (s' & ? & _ & ?); [done..|]. by exists s'.
  - destruct (Hgen dilation_func dilation_func_bad_shape image s x)
      as (s' & ? & _ & ?); [done..|]. by exists s'.
  - apply (Hgen2 erosion_func dilation_func erode).
    + apply erosion_func_computes.
    + apply shape_erode.
    + apply dilation_func_bad_shape.
  - apply (Hgen2 dilation_func erosion_func dilate).
    + apply dilation_func_computes.
    + apply shape_dilate.
    + apply erosion_func_bad_shape.
  - by apply elem_of_nil in Hop.
Qed.

Lemma wrong_out_shape_raises_witness :
  let x := of_rows [[true; true; false]; [true; true; true]] in
  let a := full [3; 2]%nat true in
  let s := State [x; a] [] in
  let fp := Single (of_rows [[true; true]]) in
  shape a ≠ shape x ∧
  ∀ op, op ∈ [binary_erosion; binary_dilation; binary_opening; binary_closing] →
    ∃ s', op 0%nat fp (Some 1%nat) s = (Raise RuntimeError, s') ∧
          ∀ r', (r' < length (heap s))%nat → heap s' !! r' = heap s !! r'.
Proof.
  intros x a s fp. split; [discriminate|].
  apply (wrong_out_shape_raises s 0%nat x fp 1%nat a).
  - reflexivity.
  - split; [reflexivity|simpl; lia].
  - reflexivity.
  - discriminate.
Defined.

(** X12. With a single footprint whose number of axes is not the
    image's, each of the four operators raises, [binary_erosion] and
    [binary_opening] with the reducer's RuntimeError, and no array that
    existed before the call has changed. *)
Theorem wrong_footprint_rank_raises s image x fp out :
  heap s !! image = Some x →
  (∀ o, out = Some o → is_Some (heap s !! o)) →
  ndim fp ≠ ndim x →
  raises_unchanged (binary_erosion image (Single fp) out) s RuntimeError ∧
  raises_unchanged (binary_opening image (Single fp) out) s RuntimeError ∧
  (∃ e, raises_unchanged (binary_dilation image (Single fp) out) s e) ∧
  (∃ e, raises_unchanged (binary_closing image (Single fp) out) s e).
Proof.
  intros Hx Hout Hr.
  destruct (dilation_func_bad_rank_uniform fp x Hr) as [ed Hed].
  assert (∀ f e o', (∀ n o, f x fp n o = Raise e) →
            (∀ o, o' = Some o → is_Some (heap s !! o)) →
            raises_unchanged (binary_op f image (Single fp) o') s e) as Hgen.
  { intros f e o' Hf Ho'.
    destruct (binary_op_first_raises f image (Single fp) o' s x e)
      as (s' & Hrun & _ & Hfr); try done.
    - intros a n o [= <- <-] _. apply Hf.
    - by exists s'. }
  assert (∀ f1 f2 e, (∀ n o, f1 x fp n o = Raise e) →
            raises_unchanged (two_stage f1 f2 image (Single fp) out) s e)
    as Hgen2.
  { intros f1 f2 e Hf.
    destruct (Hgen f1 e None Hf) as (s' & Hrun & Hfr); [done|].
    exists s'. split; [|done]. unfold two_stage.
    by rewrite (bind_Raise _ _ _ _ _ Hrun). }
  assert (∀ n o, erosion_func x fp n o = Raise RuntimeError) as Hee.
  { intros n o. by apply erosion_func_bad_rank. }
  split_and!.
  - by apply (Hgen erosion_func).
  - by apply (Hgen2 erosion_func dilation_func).
  - exists ed. by apply (Hgen dilation_func).
  - exists ed. by apply (Hgen2 dilation_func erosion_func).
Qed.

Lemma wrong_footprint_rank_raises_witness :
  let x := of_rows [[true; true; false]; [true; true; true]] in
  let fp := NdArray [3]%nat [true; true; true] in
  let s := State [x; full [2; 3]%nat false] [] in
  let out := Some 1%nat in
  raises_unchanged (binary_erosion 0%nat (Single fp) out) s RuntimeError ∧
  raises_unchanged (binary_opening 0%nat (Single fp) out) s RuntimeError ∧
  (∃ e, raises_unchanged (binary_dilation 0%nat (Single fp) out) s e) ∧
  (∃ e, raises_unchanged (binary_closing 0%nat (Single fp) out) s e).
Proof.
  intros x fp s out.
  apply (wrong_footprint_rank_raises s 0%nat x fp out).
  - reflexivity.
  - intros o [= <-]. by eexists.
  - discriminate.
Defined.

(** ** A failure in the middle of a sequence *)

Lemma iterate_rest_partial f out good bad n more e s y y' :
  heap s !! out = Some y →
  chain f y good = Ok y' →
  f y' bad n y' = Raise e →
  ∃ s', _iterate_rest f (good ++ (bad, n) :: more) out s = (Raise e, s') ∧
        heap s' !! out = Some y'.
Proof.
  revert s y. induction good as [|[a k] good IH]; intros s y Hout Hch Hf.
  - simpl in Hch. injection Hch as <-. simpl.
    rewrite (bind_Ok _ _ _ _ _ (copy_Ok _ _ _ Hout)). unfold bind.
    assert ((heap s ++ [y]) !! length (heap s) = Some y) as Hsrc
      by by apply list_lookup_middle.
    assert ((heap s ++ [y]) !! out = Some y) as Hdst
      by by apply lookup_app_l_Some.
    rewrite (call_reducer_eq f (length (heap s)) bad out n
               (State (heap s ++ [y]) (trace s)) y y Hsrc Hdst).
    rewrite Hf. simpl. by eexists.
  - simpl in Hch. destruct (f y a k y) as [y1|e1|] eqn:Hy1; try done.
    simpl in Hch. simpl.
    rewrite (bind_Ok _ _ _ _ _ (copy_Ok _ _ _ Hout)). unfold bind at 1.
    assert ((heap s ++ [y]) !! length (heap s) = Some y) as Hsrc
      by by apply list_lookup_middle.
    assert ((heap s ++ [y]) !! out = Some y) as Hdst
      by by apply lookup_app_l_Some.
    rewrite (call_reducer_eq f (length (heap s)) a out k
               (State (heap s ++ [y]) (trace s)) y y Hsrc Hdst).
    rewrite Hy1. simpl. apply (IH _ y1); [|done..]. simpl.
    apply list_lookup_insert_eq. by eapply lookup_lt_Some.
Qed.

Lemma iterate_binary_func_partial f image out good bad n more e s x o y' :
  heap s !! image = Some x →
  heap s !! out = Some o →
  driver_value f x o good = Ok y' →
  f y' bad n y' = Raise e →
  ∃ s', _iterate_binary_func f image (good ++ (bad, n) :: more) out s
          = (Raise e, s') ∧
        heap s' !! out = Some y'.
Proof.
  intros Hx Ho Hval Hf. destruct good as [|[a k] good]; [done|].
  simpl in Hval. destruct (f x a k o) as [y0|e0|] eqn:Hy0; try done.
  simpl in Hval. simpl. unfold bind at 1.
  rewrite (call_reducer_eq f image a out k s x o Hx Ho). rewrite Hy0. simpl.
  destruct (iterate_rest_partial f out good bad n more e
              (State (<[out:=y0]> (heap s)) (trace s ++ [Call image out x o a k]))
              y0 y') as (s' & Hrun & Hy'); [|done..|].
  { simpl. apply list_lookup_insert_eq. by eapply lookup_lt_Some. }
  exists s'. split; [|done]. unfold bind. by rewrite Hrun.
Qed.

(** X13. When a pair in the middle of a sequence has a footprint whose
    number of axes is not the image's while the pairs before it are
    well-formed, [binary_erosion] and [binary_dilation] with a given
    [out] raise (erosion with the reducer's RuntimeError) and leave in
    [out] the result of the pairs before the failing one: the caller's
    array has been overwritten with a partial result. *)
Theorem failure_leaves_partial_result s image x o a good bad n more :
  heap s !! image = Some x →
  heap s !! o = Some a →
  shape a = shape x →
  footprint_ok (ndim x) (Decomposed good) →
  ndim bad ≠ ndim x →
  (∃ s', binary_erosion image (Decomposed (good ++ (bad, n) :: more)) (Some o) s
           = (Raise RuntimeError, s') ∧
         heap s' !! o = Some (erosion (Decomposed good) x)) ∧
  (∃ e s', binary_dilation image (Decomposed (good ++ (bad, n) :: more)) (Some o) s
             = (Raise e, s') ∧
           heap s' !! o = Some (dilation (Decomposed good) x)).
Proof.
  intros Hx Ho Hsh Hgood Hbad. split.
  - destruct (iterate_binary_func_partial erosion_func image o good bad n more
                RuntimeError s x a (erosion (Decomposed good) x))
      as (s' & Hrun & Hval); try done.
    + by apply (driver_value_ok erosion_func erode erosion_func_computes shape_erode).
    + apply erosion_func_bad_rank. unfold ndim. by rewrite shape_erosion.
    + by exists s'.
  - destruct (dilation_func_bad_rank_uniform bad (dilation (Decomposed good) x))
      as [e He]; [unfold ndim; by rewrite shape_dilation|].
    destruct (iterate_binary_func_partial dilation_func image o good bad n more
                e s x a (dilation (Decomposed good) x))
      as (s' & Hrun & Hval); try done.
    + by apply (driver_value_ok dilation_func dilate dilation_func_computes shape_dilate).
    + by exists e, s'.
Qed.

Lemma failure_leaves_partial_result_witness :
  let x := NdArray [4]%nat [true; true; true; false] in
  let a := full [4]%nat true in
  let s := State [x; a] [] in
  let good := [(NdArray [3]%nat [true; true; true], 1)] in
  let bad := of_rows [[true; true]; [true; true]] in
  (∃ s', binary_erosion 0%nat (Decomposed (good ++ (bad, 1) :: [])) (Some 1%nat) s
           = (Raise RuntimeError, s') ∧
         heap s' !! 1%nat = Some (erosion (Decomposed good) x)) ∧
  (∃ e s', binary_dilation 0%nat (Decomposed (good ++ (bad, 1) :: [])) (Some 1%nat) s
             = (Raise e, s') ∧
           heap s' !! 1%nat = Some (dilation (Decomposed good) x)).
Proof.
  intros x a s good bad.
  apply (failure_leaves_partial_result s 0%nat x 1%nat a good bad 1 []).
  - reflexivity.
  - reflexivity.
  - reflexivity.
  - split; [done|]. repeat constructor; simpl; lia.
  - discriminate.
Defined.

(** ** Arrays allocated and the shape of the result *)

Lemma iterate_rest_allocs f out rest s y y' :
  heap s !! out = Some y →
  chain f y rest = Ok y' →
  length (heap (_iterate_rest f rest out s).2)
    = (length (heap s) + length rest)%nat.
Proof.
  revert s y. induction rest as [|[a k] rest IH]; intros s y Hout Hch.
  - simpl. lia.
  - simpl in Hch. destruct (f y a k y) as [y1|e1|] eqn:Hy1; try done.
    simpl in Hch. simpl.
    rewrite (bind_Ok _ _ _ _ _ (copy_Ok _ _ _ Hout)). unfold bind at 1.
    assert ((heap s ++ [y]) !! length (heap s) = Some y) as Hsrc
      by by apply list_lookup_middle.
    assert ((heap s ++ [y]) !! out = Some y) as Hdst
      by by apply lookup_app_l_Some.
    rewrite (call_reducer_eq f (length (heap s)) a out k
               (State (heap s ++ [y]) (trace s)) y y Hsrc Hdst).
    rewrite Hy1. simpl. rewrite (IH _ y1); [|simpl|done].
    + simpl. rewrite length_insert, length_app. simpl. lia.
    + apply list_lookup_insert_eq. rewrite length_app.
      apply lookup_lt_Some in Hout. lia.
Qed.

Lemma binary_op_allocs f op image fp out s x :
  (∀ a y n c, structure_ok (ndim y) a → shape c = shape y → 1 <= n →
              f y a n c = Ok (Nat.iter (Z.to_nat n) (op a) y)) →
  (∀ a y, shape (op a y) = shape y) →
  heap s !! image = Some x →
  footprint_ok (ndim x) fp →
  out_ok s (shape x) out →
  length (heap (binary_op f image fp out s).2)
    = (length (heap s) + (match out with Some _ => 0 | None => 1 end)
       + (length (steps_of fp) - 1))%nat.
Proof.
  intros Hf Hshape Hx Hfp Hout.
  set (r := default (length (heap s)) out).
  set (s0 := match out with
             | None => State (heap s ++ [full (shape x) false]) (trace s)
             | Some _ => s
             end).
  assert (out_or_empty image out s = (Ok r, s0)) as Hprep.
  { destruct out as [o|]; simpl; [done|].
    by rewrite (bind_Ok _ _ _ _ _ (deref_Ok _ _ _ Hx)). }
  assert (∃ o, heap s0 !! r = Some o ∧ shape o = shape x) as (o & Ho & Hso).
  { destruct out as [o|]; simpl in *; [done|].
    eexists. split; [by apply list_lookup_middle|done]. }
  assert (heap s0 !! image = Some x) as Hx0.
  { destruct out; simpl; [done|]. by apply lookup_app_l_Some. }
  assert (length (heap s0) = length (heap s) + (match out with Some _ => 0 | None => 1 end))%nat
    as Hlen0.
  { unfold s0. destruct out; simpl; [lia|]. by rewrite length_app. }
  apply lookup_lt_Some in Ho as Hlt.
  unfold binary_op. rewrite (bind_Ok _ _ _ _ _ Hprep).
  destruct fp as [a|[|[a n] rest]]; simpl in Hfp.
  - unfold bind. rewrite (call_reducer_eq f image a r 1 s0 x o Hx0 Ho).
    rewrite Hf by done. simpl. rewrite length_insert. lia.
  - by destruct Hfp.
  - destruct Hfp as [_ Hok]. apply Forall_cons_1 in Hok as [[Ha Hn] Hok].
    simpl in Ha, Hn. simpl. unfold bind at 1.
    rewrite (call_reducer_eq f image a r n s0 x o Hx0 Ho).
    rewrite Hf by done. simpl. unfold bind.
    pose proof (iterate_rest_allocs f r rest
      (State (<[r:=Nat.iter (Z.to_nat n) (op a) x]> (heap s0))
             (trace s0 ++ [Call image r x o a n]))
      (Nat.iter (Z.to_nat n) (op a) x)
      (apply_steps op rest (Nat.iter (Z.to_nat n) (op a) x))) as Hal.
    simpl in Hal. rewrite length_insert in Hal.
    destruct (_iterate_rest f rest r _) as [[[]|e|] s']; simpl in *;
      rewrite Hal; try lia;
      try (by apply list_lookup_insert_eq);
      try (apply (chain_ok f op Hf Hshape); unfold ndim;
           by rewrite shape_iter by apply Hshape).
Qed.

(** X14. On a live image and a well-formed footprint argument,
    [binary_erosion] and [binary_dilation] allocate one array for the
    result when [out] is absent and one copy for each pair after the
    first; with [out] given and a single footprint they allocate
    nothing.  [binary_opening] and [binary_closing] allocate that for
    each of their two stages, the first stage always without [out]. *)
Theorem arrays_allocated s image x fp out :
  heap s !! image = Some x →
  footprint_ok (ndim x) fp →
  out_ok s (shape x) out →
  let copies := (length (steps_of fp) - 1)%nat in
  let result := match out with Some _ => 0%nat | None => 1%nat end in
  length (heap (binary_erosion image fp out s).2)
    = (length (heap s) + result + copies)%nat ∧
  length (heap (binary_dilation image fp out s).2)
    = (length (heap s) + result + copies)%nat ∧
  length (heap (binary_opening image fp out s).2)
    = (length (heap s) + (1 + copies) + (result + copies))%nat ∧
  length (heap (binary_closing image fp out s).2)
    = (length (heap s) + (1 + copies) + (result + copies))%nat.
Proof.
  intros Hx Hfp Hout copies result.
  pose proof (binary_op_allocs erosion_func erode image fp out s x
                erosion_func_computes shape_erode Hx Hfp Hout) as He.
  pose proof (binary_op_allocs dilation_func dilate image fp out s x
                dilation_func_computes shape_dilate Hx Hfp Hout) as Hd.
  split_and!; [exact He|exact Hd| |].
  - destruct (binary_opening_spec image fp out s x)
      as (mid & s1 & r & s' & Hrun1 & [Hmid Hv1 Hfr1 _ _] & Hrun2 & _ & Hrun);
      [done..|].
    pose proof (binary_op_allocs erosion_func erode image fp None s x
                  erosion_func_computes shape_erode Hx Hfp I) as H1.
    pose proof (binary_op_allocs dilation_func dilate mid fp out s1
                  (erosion fp x) dilation_func_computes shape_dilate Hv1) as H2.
    rewrite <-binary_erosion_unfold, Hrun1 in H1.
    rewrite <-binary_dilation_unfold, Hrun2 in H2. rewrite Hrun.
    simpl in *. rewrite H2, H1; [unfold copies, result; lia| |].
    + unfold ndim. by rewrite shape_erosion.
    + destruct out as [o|]; simpl in *; [|done].
      destruct Hout as (a & Ha & Hs). exists a. rewrite shape_erosion.
      split; [|done]. apply lookup_lt_Some in Ha as Hlt.
      rewrite Hfr1; [done|done|]. lia.
  - destruct (binary_closing_spec image fp out s x)
      as (mid & s1 & r & s' & Hrun1 & [Hmid Hv1 Hfr1 _ _] & Hrun2 & _ & Hrun);
      [done..|].
    pose proof (binary_op_allocs dilation_func dilate image fp None s x
                  dilation_func_computes shape_dilate Hx Hfp I) as H1.
    pose proof (binary_op_allocs erosion_func erode mid fp out s1
                  (dilation fp x) erosion_func_computes shape_erode Hv1) as H2.
    rewrite <-binary_dilation_unfold, Hrun1 in H1.
    rewrite <-binary_erosion_unfold, Hrun2 in H2. rewrite Hrun.
    simpl in *. rewrite H2, H1; [unfold copies, result; lia| |].
    + unfold ndim. by rewrite shape_dilation.
    + destruct out as [o|]; simpl in *; [|done].
      destruct Hout as (a & Ha & Hs). exists a. rewrite shape_dilation.
      split; [|done]. apply lookup_lt_Some in Ha as Hlt.
      rewrite Hfr1; [done|done|]. lia.
Qed.

Lemma arrays_allocated_witness :
  let x := NdArray [5]%nat [true; true; true; true; false] in
  let s := State [x; full [5]%nat false] [] in
  let fp := Decomposed [(NdArray [3]%nat [true; true; true], 1);
                        (NdArray [3]%nat [true; true; false], 2);
                        (NdArray [2]%nat [true; true], 1)] in
  let out := Some 1%nat in
  let copies := (length (steps_of fp) - 1)%nat in
  let result := match out with Some _ => 0%nat | None => 1%nat end in
  length (heap (binary_erosion 0%nat fp out s).2)
    = (length (heap s) + result + copies)%nat ∧
  length (heap (binary_dilation 0%nat fp out s).2)
    = (length (heap s) + result + copies)%nat ∧
  length (heap (binary_opening 0%nat fp out s).2)
    = (length (heap s) + (1 + copies) + (result + copies))%nat ∧
  length (heap (binary_closing 0%nat fp out s).2)
    = (length (heap s) + (1 + copies) + (result + copies))%nat.
Proof.
  intros x s fp out.
  apply (arrays_allocated s 0%nat x fp out).
  - reflexivity.
  - split; [done|]. repeat constructor; simpl; lia.
  - exists (full [5]%nat false). split; reflexivity.
Defined.
